(** * Equihome JSON simulation engine

    A shallow embedding of [src/json-simulation/src/utils/calculations.ts]
    and of the simulation worker ([src/json-simulation/src/index.ts], the
    part after the first document separator), together with the properties
    of the engine that the specification states about them.

    Numbers.  A JavaScript number is an IEEE-754 double.  A finite number
    is a rational ([Q]) here, and results are compared with [==] ([Qeq]).
    The functions whose properties depend on the last digit
    ([calculateCatchUpDistribution], [calculateVaR], [calculatePercentile]
    and with it the portfolio projections, and the equity multiple of
    [Rounded]) round every arithmetic operation to the nearest double
    ([Double.round]).  The other functions are written with exact
    arithmetic; what is stated of them is about the control flow, the
    structure of the results, signs, orders and bounds.  The non-finite
    values that the code can produce (by a division by zero, a zero base
    raised to a negative power, or a read outside an array) are modelled
    explicitly: [JsNumber.num] adds the infinities and NaN to the
    rationals, and [option] stands for a value that may be [undefined],
    [null] or NaN, as said at each function. *)

From Stdlib Require Import ZArith QArith Qround Qabs Qpower Lqa Lia.
From Stdlib Require PrimFloat FloatOps SpecFloat Uint63.
From stdpp Require Import base option list strings gmap pretty.

Open Scope Q_scope.

(** ** JavaScript numbers *)

(** [a < b] on finite numbers, as a boolean. *)
Definition Qltb (a b : Q) : bool := negb (Qle_bool b a).

(** [Math.max] and [Math.min] on finite numbers. *)
Definition Math_max (a b : Q) : Q := if Qle_bool a b then b else a.
Definition Math_min (a b : Q) : Q := if Qle_bool a b then a else b.

(** [Number.isInteger] on a finite number. *)
Definition Number_isInteger (x : Q) : bool := Qeq_bool (inject_Z (Qfloor x)) x.

(** [Math.round] on a finite number: the nearest integer, halves up. *)
Definition Math_round (x : Q) : Z := Qfloor (x + (1 # 2)).

(** [arr[i]] for an integral index [i]: [undefined] ([None]) outside
    [0 .. length - 1]. *)
Definition arr_get {A : Type} (arr : list A) (i : Z) : option A :=
  if (i <? 0)%Z then None else arr !! Z.to_nat i.

Module JsNumber.

(** A number: a finite rational, an infinity, or NaN.  Zero is unsigned:
    where the code divides by a zero or raises a zero to a negative power,
    that zero is one that IEEE arithmetic computes as [+0] (in
    [calculateIrr] a sum started at [0] or [1 + (-1)], in the equity
    multiple a [Math.abs]). *)
Inductive num : Type :=
| Fin (q : Q)
| PInf
| NInf
| NaN.

Definition neg (a : num) : num :=
  match a with
  | Fin q => Fin (- q)
  | PInf => NInf
  | NInf => PInf
  | NaN => NaN
  end.

Definition add (a b : num) : num :=
  match a, b with
  | NaN, _ | _, NaN => NaN
  | Fin x, Fin y => Fin (x + y)
  | PInf, NInf | NInf, PInf => NaN
  | PInf, _ | _, PInf => PInf
  | NInf, _ | _, NInf => NInf
  end.

Definition sub (a b : num) : num := add a (neg b).

Definition mul (a b : num) : num :=
  match a, b with
  | NaN, _ | _, NaN => NaN
  | Fin x, Fin y => Fin (x * y)
  | Fin x, PInf | PInf, Fin x =>
      match x ?= 0 with Eq => NaN | Gt => PInf | Lt => NInf end
  | Fin x, NInf | NInf, Fin x =>
      match x ?= 0 with Eq => NaN | Gt => NInf | Lt => PInf end
  | PInf, PInf | NInf, NInf => PInf
  | PInf, NInf | NInf, PInf => NInf
  end.

Definition div (a b : num) : num :=
  match a, b with
  | NaN, _ | _, NaN => NaN
  | Fin x, Fin y =>
      match y ?= 0 with
      | Eq => match x ?= 0 with Eq => NaN | Gt => PInf | Lt => NInf end
      | _ => Fin (x / y)
      end
  | Fin _, PInf | Fin _, NInf => Fin 0
  | PInf, Fin y => if Qltb y 0 then NInf else PInf
  | NInf, Fin y => if Qltb y 0 then PInf else NInf
  | PInf, PInf | PInf, NInf | NInf, PInf | NInf, NInf => NaN
  end.

(** [Math.abs]. *)
Definition abs (a : num) : num :=
  match a with
  | Fin q => Fin (Qabs q)
  | PInf | NInf => PInf
  | NaN => NaN
  end.

(** [a < b]: false as soon as one side is NaN. *)
Definition lt (a b : num) : bool :=
  match a, b with
  | NaN, _ | _, NaN => false
  | Fin x, Fin y => Qltb x y
  | _, NInf => false
  | NInf, _ => true
  | PInf, _ => false
  | Fin _, PInf => true
  end.

(** [Math.pow base e] for an integral exponent [e]. *)
Definition pow (base : num) (e : Z) : num :=
  if (e =? 0)%Z then Fin 1
  else match base with
       | NaN => NaN
       | PInf => if (0 <? e)%Z then PInf else Fin 0
       | NInf => if (0 <? e)%Z
                 then (if Z.odd e then NInf else PInf)
                 else Fin 0
       | Fin q => if Qeq_bool q 0
                  then (if (0 <? e)%Z then Fin 0 else PInf)
                  else Fin (q ^ e)
       end.

End JsNumber.
Import JsNumber.

(** ** Double precision

    The finite doubles are the rationals [m * 2^e] with [|m| < 2^53] and
    [-1074 <= e]; an arithmetic operation of the code returns the double
    nearest to the exact result, the one with the even significand when
    two are equally near.  [Double.round] is that rounding.  The exponent
    has no upper bound here: an operation that overflows (a result beyond
    about 1.8e308 in absolute value) is outside this model, as are NaN
    operands and the sign of a zero. *)
Module Double.

(** The integer nearest to [x], the even one of two that are equally near. *)
Definition roundHalfEven (x : Q) : Z :=
  let f := Qfloor x in
  match Qcompare (x - inject_Z f) (1 # 2) with
  | Lt => f
  | Eq => if Z.even f then f else (f + 1)%Z
  | Gt => (f + 1)%Z
  end.

(** The binary exponent of [x <> 0]: the [e] with [2^e <= |x| < 2^(e+1)]. *)
Definition exponentOf (x : Q) : Z :=
  let e := (Z.log2 (Z.abs (Qnum x)) - Z.log2 (Zpos (Qden x)))%Z in
  if Qle_bool (2 ^ e) (Qabs x) then e else (e - 1)%Z.

(** The exponent of the last place of the doubles around [x]: 52 places
    below the exponent of [x], and [-1074] for the subnormal numbers. *)
Definition quantum (x : Q) : Z := Z.max (exponentOf x - 52) (-1074).

Definition round (x : Q) : Q :=
  if Qeq_bool x 0 then 0
  else inject_Z (roundHalfEven (x / 2 ^ quantum x)) * 2 ^ quantum x.

(** The numbers that are doubles. *)
Definition isDouble (x : Q) : Prop := round x == x.

(** [a + b], [a - b], [a * b] and [a / b] (for [b <> 0]) as the code
    computes them. *)
Definition add (a b : Q) : Q := round (a + b).
Definition sub (a b : Q) : Q := round (a - b).
Definition mul (a b : Q) : Q := round (a * b).
Definition div (a b : Q) : Q := round (a / b).

(** The rounding of a result that may be infinite or NaN. *)
Definition roundNum (a : num) : num :=
  match a with
  | Fin q => Fin (round q)
  | _ => a
  end.

End Double.

(** The doubles of the machine, to compare [Double.round] with: the finite
    value of a primitive float, and the primitive float of an integer. *)
Definition valueOf (f : PrimFloat.float) : option Q :=
  match FloatOps.Prim2SF f with
  | SpecFloat.S754_zero _ => Some 0
  | SpecFloat.S754_finite s m e =>
      Some (inject_Z (if s then Z.neg m else Z.pos m) * 2 ^ e)
  | _ => None
  end.

Definition machine (n : Z) : PrimFloat.float := PrimFloat.of_uint63 (Uint63.of_Z n).
Arguments machine n%_Z.

Definition agree (f : PrimFloat.float) (q : Q) : bool :=
  match valueOf f with
  | Some x => Qeq_bool x q
  | None => false
  end.

(** ** calculations.ts *)

(** *** calculateIrr *)

Definition initialGuess : Q := 1 # 10.
Definition maxIterations : nat := 1000.
Definition tolerance : Q := 1 # 10000000.

(** The inner loop of [calculateIrr]: it adds the terms of the net present
    value and of its derivative at [guess] to the two accumulators.  Time
    points are integral, as the default index sequence is: a fractional
    power of a rational is not a rational in general. *)
Fixpoint npvTerms (guess : num) (cashFlows : list Q) (times : list Z)
    (npv derivativeNpv : num) : num * num :=
  match cashFlows, times with
  | cf :: cashFlows', t :: times' =>
      let factor := pow (add (Fin 1) guess) (- t) in
      let npv' := add npv (mul (Fin cf) factor) in
      let derivativeNpv' :=
        sub derivativeNpv
            (mul (Fin (inject_Z t * cf)) (pow (add (Fin 1) guess) (- t - 1))) in
      npvTerms guess cashFlows' times' npv' derivativeNpv'
  | _, _ => (npv, derivativeNpv)
  end.

(** The net present value of the series discounted at [rate], and its
    derivative, as [calculateIrr] computes them. *)
Definition npvAt (cashFlows : list Q) (times : list Z) (rate : num) : num :=
  fst (npvTerms rate cashFlows times (Fin 0) (Fin 0)).

Definition derivativeNpvAt (cashFlows : list Q) (times : list Z) (rate : num) : num :=
  snd (npvTerms rate cashFlows times (Fin 0) (Fin 0)).

(** One Newton update: [guess - npv / derivativeNpv]. *)
Definition newtonUpdate (cashFlows : list Q) (times : list Z) (guess : num) : num :=
  sub guess (div (npvAt cashFlows times guess) (derivativeNpvAt cashFlows times guess)).

(** The outer loop, with [remaining] iterations left.  The second component
    counts the iterations whose body was entered; [None] is [null]. *)
Fixpoint newtonLoop (remaining : nat) (entered : nat)
    (cashFlows : list Q) (times : list Z) (guess : num) : option num * nat :=
  match remaining with
  | O => (None, entered)
  | S remaining' =>
      let npv := npvAt cashFlows times guess in
      if lt (abs npv) (Fin tolerance) then (Some guess, S entered)
      else
        let newGuess := newtonUpdate cashFlows times guess in
        if lt (abs (sub newGuess guess)) (Fin tolerance) then (Some newGuess, S entered)
        else if lt newGuess (Fin (-1)) then (None, S entered)
        else newtonLoop remaining' (S entered) cashFlows times newGuess
  end.

(** [timePoints || cashFlows.map((_, i) => i)]: an array, even an empty one,
    is truthy. *)
Definition timesOf (cashFlows : list Q) (timePoints : option (list Z)) : list Z :=
  match timePoints with
  | Some times => times
  | None => map Z.of_nat (seq 0 (length cashFlows))
  end.

(** [calculateIrr] with the number of Newton iterations it performed. *)
Definition calculateIrrRun (cashFlows : list Q) (timePoints : option (list Z))
    : option num * nat :=
  if (length cashFlows <? 2)%nat then (None, O)
  else
    let times := timesOf cashFlows timePoints in
    if negb (length cashFlows =? length times)%nat then (None, O)
    else newtonLoop maxIterations 0 cashFlows times (Fin initialGuess).

Definition calculateIrr (cashFlows : list Q) (timePoints : option (list Z)) : option num :=
  fst (calculateIrrRun cashFlows timePoints).

Definition irrIterations (cashFlows : list Q) (timePoints : option (list Z)) : nat :=
  snd (calculateIrrRun cashFlows timePoints).

(** *** calculateEquityMultiple *)

Definition calculateEquityMultiple (totalReturns initialInvestment : num) : num :=
  div totalReturns initialInvestment.

(** *** calculateMaxDrawdown *)

(** The loop over [values[1 ..]], with the running [peak] and [maxDrawdown]. *)
Fixpoint drawdownLoop (rest : list Q) (peak maxDrawdown : Q) : Q :=
  match rest with
  | [] => maxDrawdown
  | v :: rest' =>
      if Qltb peak v then drawdownLoop rest' v maxDrawdown
      else
        let drawdown := if Qltb 0 peak then (peak - v) / peak else 0 in
        drawdownLoop rest' peak (Math_max maxDrawdown drawdown)
  end.

Definition calculateMaxDrawdown (values : list Q) : Q :=
  match values with
  | [] | [_] => 0
  | v0 :: rest => drawdownLoop rest v0 0
  end.

(** *** calculateCatchUpDistribution

    The two subtractions, the division, the product and the final sum are
    each rounded, in the order of the source; [Math.min] is exact. *)

Record Distribution : Type := { lpProfit : Q; gpProfit : Q }.

Definition calculateCatchUpDistribution
    (totalProfit catchUpPercentage lpPreferredReturn : Q) : Distribution :=
  let lpProfit := Math_min totalProfit lpPreferredReturn in
  let remainingProfit := Double.sub totalProfit lpProfit in
  let gpCatchUp := Double.mul remainingProfit (Double.div catchUpPercentage 100) in
  let lpCatchUp := Double.sub remainingProfit gpCatchUp in
  {| lpProfit := Double.add lpProfit lpCatchUp; gpProfit := gpCatchUp |}.

(** *** Sorting

    [[...xs].sort((a, b) => a - b)] on finite numbers: the stable ascending
    rearrangement of [xs], computed here by insertion.  The difference of
    two doubles has the sign of the exact difference, so that the order is
    the order of the rationals. *)
Fixpoint insertAsc (x : Q) (sorted : list Q) : list Q :=
  match sorted with
  | [] => [x]
  | y :: sorted' => if Qle_bool x y then x :: y :: sorted' else y :: insertAsc x sorted'
  end.

Definition sortAsc (xs : list Q) : list Q := foldr insertAsc [] xs.

(** *** calculateVaR

    [None] is [undefined], the result of reading outside the array.  The
    index is [Math.floor] of a rounded product of a rounded difference and
    the length of the array, which is an integer below [2^32] and so a
    double. *)
Definition varIndex (len : nat) (confidenceLevel : Q) : Z :=
  Qfloor (Double.mul (Double.sub 1 (Double.div confidenceLevel 100))
                     (inject_Z (Z.of_nat len))).

Definition calculateVaR (returns : list Q) (confidenceLevel : Q) : option Q :=
  let sortedReturns := sortAsc returns in
  let index := varIndex (length sortedReturns) confidenceLevel in
  arr_get sortedReturns index.

(** *** calculatePercentile

    [None] is [undefined] (integral index outside the array) or NaN (an
    interpolation that reads outside the array).  The position, the weight
    and the interpolation are computed in double precision, every
    operation rounded. *)
Definition calculatePercentile (values : list Q) (percentile : Q) : option Q :=
  let sorted := sortAsc values in
  let index :=
    Double.mul (Double.div percentile 100)
               (Double.sub (inject_Z (Z.of_nat (length sorted))) 1) in
  if Number_isInteger index then arr_get sorted (Qfloor index)
  else
    let lower := Qfloor index in
    let upper := Qceiling index in
    let weight := Double.sub index (inject_Z lower) in
    lo ← arr_get sorted lower;
    hi ← arr_get sorted upper;
    Some (Double.add (Double.mul lo (Double.sub 1 weight)) (Double.mul hi weight)).

(** *** generateRandomValue

    [generateRandomNormal] draws from [Math.random]; its result is taken
    here as the argument [randomNormal]. *)
Definition generateRandomValue (expectedValue volatility randomNormal : Q) : Q :=
  expectedValue * (1 + (volatility * randomNormal) / 100).

(** ** The simulation worker (index.ts) *)

(** *** Memoization *)

(** [Array.prototype.join]. *)
Fixpoint join (sep : string) (parts : list string) : string :=
  match parts with
  | [] => EmptyString
  | [part] => part
  | part :: rest => part +:+ sep +:+ join sep rest
  end.

(** The string of a number.  An integral value prints as its decimal
    numeral, as in JavaScript (below 1e21).  JavaScript prints any other
    double as the shortest decimal that reads back as the same double, which
    has no counterpart on exact rationals: such a value prints here as its
    reduced fraction. *)
Definition Number_toString (x : Q) : string :=
  let r := Qred x in
  match Qden r with
  | 1%positive => pretty (Qnum r)
  | d => pretty (Qnum r) +:+ "/" +:+ pretty (Zpos d)
  end.

(** The key function of [memoizedIrr]:
    [`irr-${cashFlows.join('-')}-${timePoints?.join('-') || ''}`].
    The last part is the empty string for a missing [timePoints] and for an
    empty one alike. *)
Definition irrKey (cashFlows : list Q) (timePoints : option (list Z)) : string :=
  "irr-" +:+ join "-" (map Number_toString cashFlows) +:+ "-" +:+
  match timePoints with
  | Some times => join "-" (map pretty times)
  | None => EmptyString
  end.

(** [memoize fn keyFn], applied to [args] in the state [cache] of the shared
    cache object.  The test [key in cache] is a lookup: the keys built here
    start with [irr-] and are not properties of [Object.prototype]. *)
Definition memoize {A R : Type} (fn : A -> R) (keyFn : A -> string)
    (args : A) (cache : gmap string R) : R * gmap string R :=
  let key := keyFn args in
  match cache !! key with
  | Some cached => (cached, cache)
  | None =>
      let result := fn args in
      (result, <[key := result]> cache)
  end.

Definition IrrArgs : Type := list Q * option (list Z).

Definition memoizedIrr (args : IrrArgs) (cache : gmap string (option num))
    : option num * gmap string (option num) :=
  memoize (fun a : IrrArgs => calculateIrr a.1 a.2)
          (fun a : IrrArgs => irrKey a.1 a.2) args cache.

(** The cache after a sequence of calls of [memoizedIrr]. *)
Definition cacheAfter (calls : list IrrArgs) (cache : gmap string (option num))
    : gmap string (option num) :=
  foldl (fun c a => (memoizedIrr a c).2) cache calls.

(** *** Equity multiple of a cash-flow series

    The expression that [runSensitivityAnalysis] and [compareScenarios]
    pass to [calculateEquityMultiple]:
    [cashFlows.slice(1).reduce((sum, cf) => sum + Math.max(0, cf), 0)] over
    [Math.abs(cashFlows[0])], the latter NaN for an empty series. *)
Definition positiveReturns (cashFlows : list Q) : Q :=
  foldl (fun sum cf => sum + Math_max 0 cf) 0 (tail cashFlows).

Definition absFirst (cashFlows : list Q) : num :=
  match head cashFlows with
  | Some cf0 => Fin (Qabs cf0)
  | None => NaN
  end.

Definition equityMultipleOf (cashFlows : list Q) : num :=
  calculateEquityMultiple (Fin (positiveReturns cashFlows)) (absFirst cashFlows).

(** The same expression with its arithmetic in double precision: the sum
    and the quotient are rounded ([Math.max] and [Math.abs] are exact). *)
Module Rounded.

Definition positiveReturns (cashFlows : list Q) : Q :=
  foldl (fun sum cf => Double.add sum (Math_max 0 cf)) 0 (tail cashFlows).

Definition calculateEquityMultiple (totalReturns initialInvestment : num) : num :=
  Double.roundNum (div totalReturns initialInvestment).

Definition equityMultipleOf (cashFlows : list Q) : num :=
  calculateEquityMultiple (Fin (positiveReturns cashFlows)) (absFirst cashFlows).

End Rounded.

(** *** Messages and responses *)

(** The payload of a [monteCarlo] request.  [runMonteCarloSimulation] reads
    the first nine fields; the allocation maps of [SimulationParameters] may
    come along and are not read.  A chunk size, when given, is a positive
    integer (a zero chunk size makes the chunk loop endless and a negative
    one makes it empty). *)
Record MonteCarloParams : Type := {
  initialInvestment : Q;
  timeHorizon : Z;
  interestRate : Q;
  propertyAppreciation : Q;
  defaultRate : Q;
  volatility : Q;
  numSimulations : Z;
  chunkSize : option positive;
  reportProgress : option bool;
  zoneAllocation : option (list (string * Q));
  geographyAllocation : option (list (string * Q))
}.

(** A scenario of a [compareScenarios] request, with the cash flows that its
    generator yields on its parameters. *)
Record Scenario : Type := { scenarioName : string; scenarioCashFlows : list Q }.

Record ScenarioComparisonResult : Type := {
  name : string;
  irr : option num;
  equityMultiple : num;
  cashFlows : list Q
}.

(** A message [{ type, data, id }], with the payload that its type tag
    announces.  [portfolioProjections] and [sensitivityAnalysis] requests
    are not part of this model; [Other type] is a message whose tag is none
    of the six of [SimulationMessageType]. *)
Inductive Request : Type :=
| MonteCarlo (data : MonteCarloParams)
| CompareScenarios (data : list Scenario)
| ClearCache
| Cancel
| Other (type : string).

Record WorkerMessage : Type := { request : Request; requestId : option string }.

(** The [data] of a response; the [stack] of an error is left out. *)
Inductive ResponseData : Type :=
| StatusData (task : string) (progress : Z) (status message : string)
| ChunkData (task : string)
    (progress currentChunk totalChunks processedSimulations totalSimulations : Z)
| MonteCarloResultsData (results : list (option (list Q)))
| ComparisonResultsData (results : list ScenarioComparisonResult)
| ErrorData (message : string) (task : option string)
| CancelledData (message : string)
| NoData.

(** A response [{ type, id, data }]; the progress responses of the chunk
    loop carry no [id]. *)
Record WorkerResponse : Type := {
  responseType : string;
  responseId : option string;
  responseData : ResponseData
}.

(** The state of the worker between two statements: the cache object and
    the number of values drawn so far from [generateRandomNormal]. *)
Record WorkerState : Type := { cache : gmap string (option num); drawn : nat }.

(** How a block of statements ends. *)
Inductive Completion (A : Type) : Type :=
| Normal (value : A)
| Throw (message : string).
Arguments Normal {A} value.
Arguments Throw {A} message.

(** A Monte Carlo run between two chunks: its parameters, the number of
    chunks, the index of the next chunk and the [results] array, whose
    unfilled slots are [None]. *)
Record MonteCarloRun : Type := {
  runParams : MonteCarloParams;
  numChunks : Z;
  chunk : Z;
  results : list (option (list Q))
}.

Definition chunkSizeOf (params : MonteCarloParams) : Z :=
  match chunkSize params with
  | Some size => Zpos size
  | None => 1000
  end.

Definition reportProgressOf (params : MonteCarloParams) : bool :=
  match reportProgress params with
  | Some report => report
  | None => true
  end.

(** The values of one simulation after [years] more years. *)
Fixpoint growValues (years : nat) (prevValue effectiveReturn : Q) : list Q :=
  match years with
  | O => []
  | S years' =>
      let value := prevValue * (1 + effectiveReturn) in
      value :: growValues years' value effectiveReturn
  end.

(** [Array.from(simValues)] for a [Float64Array] of [timeHorizon + 1 >= 0]
    entries. *)
Definition simValuesOf (params : MonteCarloParams) (effectiveReturn : Q) : list Q :=
  if (timeHorizon params + 1 =? 0)%Z then []
  else initialInvestment params
         :: growValues (Z.to_nat (timeHorizon params)) (initialInvestment params)
                       effectiveReturn.

Section SimulationWorker.

(** [randomNormal k] is the value of the [k]-th call of
    [generateRandomNormal] in this worker. *)
Variable randomNormal : nat -> Q.

(** The body of the simulation loop, for the simulation [sim]:
    [new Float64Array(timeHorizon + 1)] throws a [RangeError] for a
    negative length.  The write [results[sim] = ...] is inside the array:
    [0 <= sim < numSimulations] in the chunk loop. *)
Definition simulateOne (params : MonteCarloParams) (sim : Z)
    (state : WorkerState) (results : list (option (list Q)))
    : Completion (list (option (list Q))) * WorkerState :=
  let k := drawn state in
  let randomInterestRate :=
    generateRandomValue (interestRate params) (volatility params) (randomNormal k) in
  let randomPropertyAppreciation :=
    generateRandomValue (propertyAppreciation params) (volatility params)
                        (randomNormal (k + 1)) in
  let randomDefaultRate :=
    generateRandomValue (defaultRate params) (volatility params)
                        (randomNormal (k + 2)) in
  let state' := {| cache := cache state; drawn := (k + 3)%nat |} in
  if (timeHorizon params + 1 <? 0)%Z
  then (Throw ("Invalid typed array length: " +:+ pretty (timeHorizon params + 1)%Z),
        state')
  else
    let effectiveReturn :=
      (randomInterestRate + randomPropertyAppreciation - randomDefaultRate) / 100 in
    (Normal (<[Z.to_nat sim := Some (simValuesOf params effectiveReturn)]> results),
     state').

(** The simulation loop of a chunk: [count] simulations from [sim] on. *)
Fixpoint simulateFrom (count : nat) (params : MonteCarloParams) (sim : Z)
    (state : WorkerState) (results : list (option (list Q)))
    : Completion (list (option (list Q))) * WorkerState :=
  match count with
  | O => (Normal results, state)
  | S count' =>
      match simulateOne params sim state results with
      | (Normal results', state') =>
          simulateFrom count' params (sim + 1)%Z state' results'
      | thrown => thrown
      end
  end.

(** The progress response that ends the chunk [chunk]. *)
Definition chunkProgress (run : MonteCarloRun) : WorkerResponse :=
  let params := runParams run in
  {| responseType := "progress";
     responseId := None;
     responseData :=
       ChunkData "monteCarlo"
         (Math_round (inject_Z (chunk run + 1) / inject_Z (numChunks run) * 100))
         (chunk run + 1)
         (numChunks run)
         (Z.min ((chunk run + 1) * chunkSizeOf params) (numSimulations params))
         (numSimulations params) |}.

(** The prologue of [runMonteCarloSimulation]: [new Array(numSimulations)],
    which throws a [RangeError] for a length outside [0 .. 2^32 - 1], and
    the number of chunks.  The messages of the exceptions are those of
    V8. *)
Definition startRun (params : MonteCarloParams) : Completion MonteCarloRun :=
  if ((numSimulations params <? 0) || (2 ^ 32 <=? numSimulations params))%Z
  then Throw "Invalid array length"
  else Normal {| runParams := params;
                 numChunks := Qceiling (inject_Z (numSimulations params)
                                        / inject_Z (chunkSizeOf params));
                 chunk := 0;
                 results := replicate (Z.to_nat (numSimulations params)) None |}.

(** One turn of the chunk loop: the simulations of the chunk, then its
    progress response. *)
Definition runChunk (run : MonteCarloRun) (state : WorkerState)
    : Completion MonteCarloRun * WorkerState * list WorkerResponse :=
  let params := runParams run in
  let startSim := (chunk run * chunkSizeOf params)%Z in
  let endSim := Z.min ((chunk run + 1) * chunkSizeOf params) (numSimulations params) in
  match simulateFrom (Z.to_nat (endSim - startSim)) params startSim state (results run) with
  | (Normal results', state') =>
      (Normal {| runParams := params; numChunks := numChunks run;
                 chunk := (chunk run + 1)%Z; results := results' |},
       state',
       if reportProgressOf params then [chunkProgress run] else [])
  | (Throw message, state') => (Throw message, state', [])
  end.

(** The chunk loop, [remaining] chunks from the state [run] on. *)
Fixpoint runChunks (remaining : nat) (run : MonteCarloRun) (state : WorkerState)
    : Completion MonteCarloRun * WorkerState * list WorkerResponse :=
  match remaining with
  | O => (Normal run, state, [])
  | S remaining' =>
      match runChunk run state with
      | (Normal run', state', posted) =>
          let '(completion, state'', posted') := runChunks remaining' run' state' in
          (completion, state'', posted ++ posted')
      | thrown => thrown
      end
  end.

(** [runMonteCarloSimulation]: its completion (the [results] array when
    it returns), the state it leaves and the responses it posts. *)
Definition runMonteCarloSimulation (params : MonteCarloParams) (state : WorkerState)
    : Completion (list (option (list Q))) * WorkerState * list WorkerResponse :=
  match startRun params with
  | Throw message => (Throw message, state, [])
  | Normal run =>
      match runChunks (Z.to_nat (numChunks run - chunk run)) run state with
      | (Normal run', state', posted) => (Normal (results run'), state', posted)
      | (Throw message, state', posted) => (Throw message, state', posted)
      end
  end.

(** [compareScenarios], threading the cache through its calls of
    [memoizedIrr]. *)
Definition compareScenario (scenario : Scenario) (cache : gmap string (option num))
    : ScenarioComparisonResult * gmap string (option num) :=
  let cashFlows := scenarioCashFlows scenario in
  let '(irr, cache') := memoizedIrr (cashFlows, None) cache in
  ({| name := scenarioName scenario;
      irr := irr;
      equityMultiple := equityMultipleOf cashFlows;
      cashFlows := cashFlows |},
   cache').

Fixpoint compareScenarios (scenarios : list Scenario) (cache : gmap string (option num))
    : list ScenarioComparisonResult * gmap string (option num) :=
  match scenarios with
  | [] => ([], cache)
  | scenario :: scenarios' =>
      let '(result, cache') := compareScenario scenario cache in
      let '(results, cache'') := compareScenarios scenarios' cache' in
      (result :: results, cache'')
  end.

Definition progressStatus (id : option string) (task : string) (progress : Z)
    (status message : string) : WorkerResponse :=
  {| responseType := "progress"; responseId := id;
     responseData := StatusData task progress status message |}.

(** The response of the [catch] clause of [self.onmessage]. *)
Definition caughtError (id : option string) (message task : string) : WorkerResponse :=
  {| responseType := "error"; responseId := id;
     responseData := ErrorData message (Some task) |}.

Definition monteCarloStarted (id : option string) : WorkerResponse :=
  progressStatus id "monteCarlo" 0 "started" "Starting Monte Carlo simulation...".

Definition monteCarloResults (id : option string) (results : list (option (list Q)))
    : WorkerResponse :=
  {| responseType := "monteCarloResults"; responseId := id;
     responseData := MonteCarloResultsData results |}.

Definition cancelled (id : option string) : WorkerResponse :=
  {| responseType := "cancelled"; responseId := id;
     responseData := CancelledData "Operation cancelled" |}.

(** [self.onmessage]: the responses posted while the message is handled,
    in order, and the state that the handler leaves. *)
Definition onmessage (e : WorkerMessage) (state : WorkerState)
    : list WorkerResponse * WorkerState :=
  let id := requestId e in
  match request e with
  | MonteCarlo data =>
      match runMonteCarloSimulation data state with
      | (Normal results, state', posted) =>
          (monteCarloStarted id :: posted ++ [monteCarloResults id results], state')
      | (Throw message, state', posted) =>
          (monteCarloStarted id :: posted ++ [caughtError id message "monteCarlo"], state')
      end
  | CompareScenarios data =>
      let '(comparisonResults, cache') := compareScenarios data (cache state) in
      ([progressStatus id "compareScenarios" 0 "started" "Comparing scenarios...";
        progressStatus id "compareScenarios" 100 "completed"
                       "Scenario comparison completed.";
        {| responseType := "comparisonResults"; responseId := id;
           responseData := ComparisonResultsData comparisonResults |}],
       {| cache := cache'; drawn := drawn state |})
  | ClearCache =>
      ([{| responseType := "cacheCleared"; responseId := id; responseData := NoData |}],
       {| cache := ∅; drawn := drawn state |})
  | Cancel => ([cancelled id], state)
  | Other type =>
      ([{| responseType := "error"; responseId := id;
           responseData := ErrorData ("Unknown message type: " +:+ type) None |}],
       state)
  end.

(** *** The worker and its message queue

    A worker runs one handler at a time, to completion; a message posted
    to it in the meantime waits in its queue.  [Post] is the main thread
    posting a message; [Work] is the worker thread doing its next piece of
    work: taking the next message from the queue, running one chunk of the
    Monte Carlo run in progress, or finishing that run. *)
Record Worker : Type := {
  globals : WorkerState;
  inbox : list WorkerMessage;
  inProgress : option (option string * MonteCarloRun);
  outbox : list WorkerResponse
}.

Inductive Event : Type :=
| Post (message : WorkerMessage)
| Work.

Definition idle (state : WorkerState) : Worker :=
  {| globals := state; inbox := []; inProgress := None; outbox := [] |}.

Definition work (w : Worker) : Worker :=
  match inProgress w with
  | Some (id, run) =>
      if (chunk run <? numChunks run)%Z then
        match runChunk run (globals w) with
        | (Normal run', state', posted) =>
            {| globals := state'; inbox := inbox w;
               inProgress := Some (id, run'); outbox := outbox w ++ posted |}
        | (Throw message, state', posted) =>
            {| globals := state'; inbox := inbox w; inProgress := None;
               outbox := outbox w ++ posted ++ [caughtError id message "monteCarlo"] |}
        end
      else
        {| globals := globals w; inbox := inbox w; inProgress := None;
           outbox := outbox w ++ [monteCarloResults id (results run)] |}
  | None =>
      match inbox w with
      | [] => w
      | e :: waiting =>
          match request e with
          | MonteCarlo data =>
              match startRun data with
              | Normal run =>
                  {| globals := globals w; inbox := waiting;
                     inProgress := Some (requestId e, run);
                     outbox := outbox w ++ [monteCarloStarted (requestId e)] |}
              | Throw message =>
                  {| globals := globals w; inbox := waiting; inProgress := None;
                     outbox := outbox w ++ [monteCarloStarted (requestId e);
                                            caughtError (requestId e) message "monteCarlo"] |}
              end
          | _ =>
              let '(posted, state') := onmessage e (globals w) in
              {| globals := state'; inbox := waiting; inProgress := None;
                 outbox := outbox w ++ posted |}
          end
      end
  end.

Definition step (w : Worker) (event : Event) : Worker :=
  match event with
  | Post message =>
      {| globals := globals w; inbox := inbox w ++ [message];
         inProgress := inProgress w; outbox := outbox w |}
  | Work => work w
  end.

Definition runEvents (events : list Event) (w : Worker) : Worker :=
  foldl step w events.

End SimulationWorker.

(** Whether a response of type [type] for the correlation id [id] is among
    [responses]. *)
Definition emittedFor (type id : string) (responses : list WorkerResponse) : bool :=
  existsb (fun r => String.eqb (responseType r) type
                    && bool_decide (responseId r = Some id)) responses.

(** The responses that carry the correlation id [id]. *)
Definition responsesFor (id : string) (responses : list WorkerResponse)
    : list WorkerResponse :=
  filter (fun r => responseId r = Some id) responses.

(** [Object.values(allocation)] summed. *)
Definition allocationSum (allocation : list (string * Q)) : Q :=
  foldr (fun entry sum => entry.2 + sum) 0 allocation.

(** ** Notions used in the statements *)

(** [ascending l]: every element is at most each later one. *)
Definition ascending (l : list Q) : Prop :=
  forall (i j : nat) (x y : Q),
    (i <= j)%nat -> l !! i = Some x -> l !! j = Some y -> x <= y.

(** A monotonically non-decreasing series: each value is at most the next. *)
Fixpoint nondecreasing (values : list Q) : Prop :=
  match values with
  | v :: (v' :: _) as rest => v <= v' /\ nondecreasing rest
  | _ => True
  end.

(** The minimum and the maximum of a series. *)
Definition isMinimumOf (m : Q) (values : list Q) : Prop :=
  m ∈ values /\ Forall (fun v => m <= v) values.

Definition isMaximumOf (m : Q) (values : list Q) : Prop :=
  m ∈ values /\ Forall (fun v => v <= m) values.

(** Two numbers that are the same value (NaN being the same as NaN). *)
Definition sameNumber (a b : num) : Prop :=
  match a, b with
  | Fin x, Fin y => x == y
  | PInf, PInf | NInf, NInf | NaN, NaN => True
  | _, _ => False
  end.

(** The series with every cash flow multiplied by [k]. *)
Definition scaleCashFlows (k : Q) (cashFlows : list Q) : list Q :=
  map (Qmult k) cashFlows.

(** The first of [calls] whose cache key is [key]. *)
Definition firstWithKey (key : string) (calls : list IrrArgs) : option IrrArgs :=
  find (fun a => String.eqb (irrKey a.1 a.2) key) calls.

(** A progress response of the chunk loop: it carries no correlation id. *)
Definition isChunkProgress (r : WorkerResponse) : Prop :=
  responseType r = "progress" /\ responseId r = None.

(** The number of chunks of a Monte Carlo run. *)
Definition totalChunks (params : MonteCarloParams) : nat :=
  Z.to_nat (Qceiling (inject_Z (numSimulations params) / inject_Z (chunkSizeOf params))).

(** ** Further functions of calculations.ts *)

(** [Math.max] and [Math.min] on numbers: NaN as soon as an argument is
    NaN. *)
Definition Math_maxNum (a b : num) : num :=
  match a, b with
  | NaN, _ | _, NaN => NaN
  | _, _ => if lt a b then b else a
  end.

Definition Math_minNum (a b : num) : num :=
  match a, b with
  | NaN, _ | _, NaN => NaN
  | _, _ => if lt b a then b else a
  end.

(** *** calculateSharpeRatio *)

Definition calculateSharpeRatio (expectedReturn riskFreeRate volatility : Q) : num :=
  if Qeq_bool volatility 0 then PInf
  else Fin ((expectedReturn - riskFreeRate) / volatility).

(** *** Returns and fees *)

Definition calculatePerformanceFee
    (totalReturn principal hurdleRate performanceFeeRate : Q) (years : Z) : num :=
  let hurdleAmount := mul (Fin principal) (pow (Fin (1 + hurdleRate)) years) in
  let excessReturn := Math_maxNum (Fin 0) (sub (Fin totalReturn) hurdleAmount) in
  mul excessReturn (Fin performanceFeeRate).

(** *** calculatePortfolioValue

    All times are integral.  A cash flow without a time point ([timePoints[i]]
    is [undefined]) fails the test [timePoints[i] <= time] and is skipped;
    a counted cash flow grows over [time - timePoints[i] >= 0] years, so
    that the power is finite. *)
Fixpoint portfolioValueLoop (cashFlows : list Q) (timePoints : list Z) (time : Z)
    (growthRate : Q) (value : Q) : Q :=
  match cashFlows with
  | [] => value
  | cf :: cashFlows' =>
      match timePoints with
      | [] => portfolioValueLoop cashFlows' [] time growthRate value
      | t :: timePoints' =>
          if (t <=? time)%Z then
            let growthPeriod := (time - t)%Z in
            portfolioValueLoop cashFlows' timePoints' time growthRate
                               (value + cf * (1 + growthRate) ^ growthPeriod)
          else portfolioValueLoop cashFlows' timePoints' time growthRate value
      end
  end.

Definition calculatePortfolioValue (initialValue : Q) (cashFlows : list Q)
    (timePoints : list Z) (time : Z) (growthRate : Q) : Q :=
  portfolioValueLoop cashFlows timePoints time growthRate initialValue.

(** *** Exit probabilities *)

Definition calculateDefaultProbability
    (defaultRate monthsSinceOrigination avgTermLength : Q) : num :=
  let monthlyBaseRate := defaultRate / 100 / 12 in
  let ageAdjustment :=
    add (Fin 1) (div (Fin monthsSinceOrigination) (Fin (avgTermLength * 12))) in
  Math_minNum (mul (Fin monthlyBaseRate) ageAdjustment) (Fin (defaultRate / 100 / 6)).

Definition calculateScheduledExitProbability
    (monthsSinceOrigination avgTermLength : Q) : num :=
  if Qle_bool (avgTermLength * 12 - 12) monthsSinceOrigination
  then Fin (1 / 12)
  else div (Fin 1) (Fin (avgTermLength * 12 * 10)).

(** ** Further functions of the worker *)

(** *** calculatePortfolioProjections

    [sim[year]] is [undefined] ([None]) in a simulation with too few
    values.  [Array.prototype.sort] moves the [undefined] entries behind the
    sorted numbers, and [calculatePercentile] then reads the array as
    before; [None] as a result is [undefined] or NaN. *)
Definition sortWithUndefined (values : list (option Q)) : list (option Q) :=
  (Some <$> sortAsc (omap id values))
    ++ replicate (length (filter (fun v => v = None) values)) None.

Definition calculatePercentileOf (values : list (option Q)) (percentile : Q) : option Q :=
  let sorted := sortWithUndefined values in
  let index :=
    Double.mul (Double.div percentile 100)
               (Double.sub (inject_Z (Z.of_nat (length sorted))) 1) in
  if Number_isInteger index then mjoin (arr_get sorted (Qfloor index))
  else
    let lower := Qfloor index in
    let upper := Qceiling index in
    let weight := Double.sub index (inject_Z lower) in
    lo ← mjoin (arr_get sorted lower);
    hi ← mjoin (arr_get sorted upper);
    Some (Double.add (Double.mul lo (Double.sub 1 weight)) (Double.mul hi weight)).

Record PortfolioProjection : Type := {
  year : nat;
  median : option Q;
  percentile_5 : option Q;
  percentile_25 : option Q;
  percentile_75 : option Q;
  percentile_95 : option Q
}.

Definition projectYear (monteCarloResults : list (list Q)) (year : nat)
    : PortfolioProjection :=
  let yearValues := map (fun sim : list Q => sim !! year) monteCarloResults in
  {| year := year;
     median := calculatePercentileOf yearValues 50;
     percentile_5 := calculatePercentileOf yearValues 5;
     percentile_25 := calculatePercentileOf yearValues 25;
     percentile_75 := calculatePercentileOf yearValues 75;
     percentile_95 := calculatePercentileOf yearValues 95 |}.

(** [Array.from({ length: timeHorizon + 1 }, ...)]: a negative length is an
    empty array, a length of [2^32] or more is a [RangeError] of the [Array]
    constructor. *)
Definition calculatePortfolioProjections (monteCarloResults : list (list Q))
    (timeHorizon : Z) : Completion (list PortfolioProjection) :=
  if (2 ^ 32 <=? timeHorizon + 1)%Z then Throw "Invalid array length"
  else Normal (map (projectYear monteCarloResults)
                   (seq 0 (Z.to_nat (timeHorizon + 1)))).

(** ** Further notions used in the statements *)

(** The response types that end a request. *)
Definition isTerminal (r : WorkerResponse) : Prop :=
  responseType r ∈ ["monteCarloResults"; "comparisonResults"; "cacheCleared";
                    "cancelled"; "error"].

(** The progress response that the chunk loop posts after the chunk of index
    [k] of a run of [params]. *)
Definition progressOfChunk (params : MonteCarloParams) (k : nat) : WorkerResponse :=
  chunkProgress {| runParams := params;
                   numChunks := Z.of_nat (totalChunks params);
                   chunk := Z.of_nat k;
                   results := [] |}.

(** The effective return of a simulation whose three draws are [z1], [z2]
    and [z3], as the simulation loop computes it, and the simulation of
    index [i] of a run that starts after [drawn] draws. *)
Definition effectiveReturnOf (params : MonteCarloParams) (z1 z2 z3 : Q) : Q :=
  (generateRandomValue (interestRate params) (volatility params) z1
   + generateRandomValue (propertyAppreciation params) (volatility params) z2
   - generateRandomValue (defaultRate params) (volatility params) z3) / 100.

Definition simulationOf (randomNormal : nat -> Q) (params : MonteCarloParams)
    (drawn i : nat) : list Q :=
  simValuesOf params
    (effectiveReturnOf params (randomNormal (drawn + 3 * i)%nat)
                       (randomNormal (drawn + 3 * i + 1)%nat)
                       (randomNormal (drawn + 3 * i + 2)%nat)).

Definition simulationsOf (randomNormal : nat -> Q) (params : MonteCarloParams)
    (drawn : nat) : list (option (list Q)) :=
  (fun i => Some (simulationOf randomNormal params drawn i))
    <$> seq 0 (Z.to_nat (numSimulations params)).

(** The percentage and the number of processed simulations that a progress
    response of the chunk loop reports. *)
Definition reportedProgress (r : WorkerResponse) : option (Z * Z) :=
  match responseData r with
  | ChunkData _ progress _ _ processedSimulations _ => Some (progress, processedSimulations)
  | _ => None
  end.

(** The [results] array of a run when the simulations before [s] are done;
    [drawn] is the number of draws consumed before the run. *)
Definition resultsAfter (randomNormal : nat -> Q) (params : MonteCarloParams)
    (drawn s : nat) : list (option (list Q)) :=
  ((fun i => Some (simulationOf randomNormal params drawn i)) <$> seq 0 s)
    ++ replicate (Z.to_nat (numSimulations params) - s) None.

(** The number of simulations done when [c] chunks are. *)
Definition simulationsDone (params : MonteCarloParams) (c : nat) : nat :=
  Z.to_nat (Z.min (Z.of_nat c * chunkSizeOf params) (numSimulations params)).

(** The message types of the worker's [switch], and the requests that this
    development describes: those of a type handled here and those whose
    type is none of the six. *)
Definition messageTypes : list string :=
  ["monteCarlo"; "portfolioProjections"; "sensitivityAnalysis";
   "compareScenarios"; "clearCache"; "cancel"].

Definition isModelled (r : Request) : Prop :=
  match r with
  | Other type => type ∉ messageTypes
  | _ => True
  end.

(** The position in the sorted array that [calculatePercentile] computes
    for the percentile [percentile] in an array of [len] values. *)
Definition percentileIndex (len : nat) (percentile : Q) : Q :=
  Double.mul (Double.div percentile 100) (Double.sub (inject_Z (Z.of_nat len)) 1).

(** * Properties *)

(** ** Comparisons and rounding on finite numbers *)

Lemma Qltb_true (a b : Q) : Qltb a b = true <-> a < b.
Proof.
  unfold Qltb. rewrite negb_true_iff. split.
  - intros H. apply Qnot_le_lt. intros Hle. apply Qle_bool_iff in Hle. congruence.
  - intros H. destruct (Qle_bool b a) eqn:E; [|done].
    apply Qle_bool_iff in E. lra.
Qed.

Lemma Qltb_false (a b : Q) : Qltb a b = false <-> b <= a.
Proof. unfold Qltb. rewrite negb_false_iff. apply Qle_bool_iff. Qed.

Lemma Qle_bool_false (a b : Q) : Qle_bool a b = false <-> b < a.
Proof.
  split.
  - intros H. apply Qnot_le_lt. intros Hle. apply Qle_bool_iff in Hle. congruence.
  - intros H. destruct (Qle_bool a b) eqn:E; [|done].
    apply Qle_bool_iff in E. lra.
Qed.

Lemma Qdiv_100 (c : Q) : c / 100 == c * (1 # 100).
Proof. reflexivity. Qed.

Lemma Math_max_cases (a b : Q) :
  (a <= b /\ Math_max a b = b) \/ (b < a /\ Math_max a b = a).
Proof.
  unfold Math_max. destruct (Qle_bool a b) eqn:E.
  - left. split; [by apply Qle_bool_iff|done].
  - right. split; [by apply Qle_bool_false|done].
Qed.

Lemma arr_get_Some {A : Type} (arr : list A) (i : Z) (x : A) :
  arr_get arr i = Some x <-> (0 <= i)%Z /\ arr !! Z.to_nat i = Some x.
Proof.
  unfold arr_get. destruct (Z.ltb_spec i 0); split.
  - done.
  - intros [? _]. lia.
  - done.
  - by intros [_ ?].
Qed.

Lemma arr_get_in_range {A : Type} (arr : list A) (i : Z) :
  (0 <= i < Z.of_nat (length arr))%Z -> exists x, arr_get arr i = Some x /\ x ∈ arr.
Proof.
  intros Hi. destruct (lookup_lt_is_Some_2 arr (Z.to_nat i)) as [x Hx]; [lia|].
  exists x. split.
  - apply arr_get_Some. split; [lia|done].
  - by eapply list_elem_of_lookup_2.
Qed.

Lemma arr_get_out_of_range {A : Type} (arr : list A) (i : Z) :
  (i < 0 \/ Z.of_nat (length arr) <= i)%Z -> arr_get arr i = None.
Proof.
  intros Hi. unfold arr_get. destruct (Z.ltb_spec i 0); [done|].
  apply lookup_ge_None. lia.
Qed.

(** ** Sorting *)

Lemma insertAsc_perm (x : Q) (sorted : list Q) : insertAsc x sorted ≡ₚ x :: sorted.
Proof.
  induction sorted as [|y sorted IH]; simpl; [done|].
  destruct (Qle_bool x y); [done|].
  rewrite IH. apply Permutation_swap.
Qed.

Lemma sortAsc_perm (xs : list Q) : sortAsc xs ≡ₚ xs.
Proof.
  induction xs as [|x xs IH]; simpl; [done|].
  rewrite insertAsc_perm. by rewrite IH.
Qed.

Lemma sortAsc_length (xs : list Q) : length (sortAsc xs) = length xs.
Proof. by rewrite sortAsc_perm. Qed.

Lemma sortAsc_elem_of (x : Q) (xs : list Q) : x ∈ sortAsc xs <-> x ∈ xs.
Proof. by rewrite sortAsc_perm. Qed.

Lemma ascending_cons (x : Q) (l : list Q) :
  ascending (x :: l) <-> Forall (Qle x) l /\ ascending l.
Proof.
  split.
  - intros H. split.
    + apply Forall_lookup. intros i y Hy. by apply (H 0%nat (S i) x y); [lia| |].
    + intros i j a b Hij Ha Hb. by apply (H (S i) (S j) a b); [lia| |].
  - intros [Hx Hl] i j a b Hij Ha Hb.
    destruct i as [|i], j as [|j]; simpl in *; simplify_eq.
    + lra.
    + eapply Forall_lookup in Hx; [|done]. done.
    + lia.
    + apply (Hl i j); [lia|done..].
Qed.

Lemma insertAsc_ascending (x : Q) (sorted : list Q) :
  ascending sorted -> ascending (insertAsc x sorted).
Proof.
  induction sorted as [|y sorted IH]; simpl; intros Hs.
  - apply ascending_cons. split; [done|]. intros i j a b _ Ha. by destruct i.
  - destruct (Qle_bool x y) eqn:E.
    + apply Qle_bool_iff in E. apply ascending_cons. split; [|done].
      apply ascending_cons in Hs as [Hy _].
      constructor; [done|]. eapply Forall_impl; [done|]. intros z Hz. simpl in Hz. lra.
    + apply Qle_bool_false in E. apply ascending_cons in Hs as [Hy Hs].
      apply ascending_cons. split; [|by apply IH].
      rewrite insertAsc_perm. constructor; [lra|done].
Qed.

Lemma sortAsc_ascending (xs : list Q) : ascending (sortAsc xs).
Proof.
  induction xs as [|x xs IH]; simpl.
  - intros i j a b _ Ha. by destruct i.
  - by apply insertAsc_ascending.
Qed.
(** ** Rounding to the nearest double *)

Lemma roundHalfEven_bounds (x : Q) :
  (Qfloor x <= Double.roundHalfEven x <= Qfloor x + 1)%Z.
Proof.
  unfold Double.roundHalfEven.
  destruct (Qcompare _ _); [destruct (Z.even _)|..]; lia.
Qed.

Lemma roundHalfEven_Z (n : Z) : Double.roundHalfEven (inject_Z n) = n.
Proof.
  unfold Double.roundHalfEven. rewrite Qfloor_Z.
  destruct (Qcompare_spec (inject_Z n - inject_Z n) (1 # 2)) as [H|H|H]; [lra|done|lra].
Qed.

#[global] Instance roundHalfEven_compat : Proper (Qeq ==> eq) Double.roundHalfEven.
Proof.
  intros x y Hxy. unfold Double.roundHalfEven.
  rewrite (Qfloor_comp _ _ Hxy).
  assert (H : Qcompare (x - inject_Z (Qfloor y)) (1 # 2)
              = Qcompare (y - inject_Z (Qfloor y)) (1 # 2)) by (by rewrite Hxy).
  by rewrite H.
Qed.

Lemma roundHalfEven_monotone (x y : Q) :
  x <= y -> (Double.roundHalfEven x <= Double.roundHalfEven y)%Z.
Proof.
  intros Hxy. pose proof (Qfloor_resp_le _ _ Hxy) as Hf.
  destruct (Z.eq_dec (Qfloor x) (Qfloor y)) as [Heq | Hne].
  - unfold Double.roundHalfEven. rewrite Heq.
    destruct (Qcompare_spec (x - inject_Z (Qfloor y)) (1 # 2)) as [Hx|Hx|Hx];
      destruct (Qcompare_spec (y - inject_Z (Qfloor y)) (1 # 2)) as [Hy|Hy|Hy];
      try destruct (Z.even _); try lia; lra.
  - pose proof (roundHalfEven_bounds x). pose proof (roundHalfEven_bounds y). lia.
Qed.

Lemma pow2_pos (k : Z) : 0 < 2 ^ k.
Proof. by apply Qpower_0_lt. Qed.

Lemma pow2_plus (a b : Z) : 2 ^ (a + b) == 2 ^ a * 2 ^ b.
Proof. by apply Qpower_plus. Qed.

Lemma pow2_Z (k : Z) : (0 <= k)%Z -> 2 ^ k == inject_Z (2 ^ k).
Proof. intros Hk. by rewrite Zpower_Qpower. Qed.

Lemma pow2_le (a b : Z) : (a <= b)%Z -> 2 ^ a <= 2 ^ b.
Proof. intros H. by apply Qpower_le_compat_l. Qed.

Lemma pow2_lt_inv (a b : Z) : 2 ^ a < 2 ^ b -> (a < b)%Z.
Proof. intros H. by apply (Qpower_lt_compat_l_inv 2). Qed.

(** A power of two is a multiple of every smaller one. *)
Lemma pow2_split (a b : Z) : (b <= a)%Z -> 2 ^ a == inject_Z (2 ^ (a - b)) * 2 ^ b.
Proof.
  intros H. rewrite <- pow2_Z by lia. rewrite <- pow2_plus.
  by replace (a - b + b)%Z with a by lia.
Qed.

Lemma exponentOf_spec (x : Q) :
  ~ x == 0 ->
  2 ^ Double.exponentOf x <= Qabs x /\ Qabs x < 2 ^ (Double.exponentOf x + 1).
Proof.
  intros Hx. destruct x as [n d].
  assert (Hn : (0 < Z.abs n)%Z).
  { destruct (Z.eq_dec n 0%Z) as [->|]; [|lia]. exfalso. apply Hx. reflexivity. }
  unfold Double.exponentOf. cbn [Qnum Qden].
  set (a := Z.log2 (Z.abs n)). set (b := Z.log2 (Z.pos d)).
  destruct (Z.log2_spec (Z.abs n) Hn) as [Ha1 Ha2]. fold a in Ha1, Ha2.
  destruct (Z.log2_spec (Z.pos d) ltac:(lia)) as [Hb1 Hb2]. fold b in Hb1, Hb2.
  assert (Ha0 : (0 <= a)%Z) by apply Z.log2_nonneg.
  assert (Hb0 : (0 <= b)%Z) by apply Z.log2_nonneg.
  assert (Habs : Qabs (n # d) == inject_Z (Z.abs n) / inject_Z (Z.pos d)).
  { change (Qabs (n # d)) with (Z.abs n # d). apply Qmake_Qdiv. }
  assert (Hd : 0 < inject_Z (Z.pos d)) by (change 0 with (inject_Z 0); rewrite <- Zlt_Qlt; lia).
  rewrite Zle_Qle, <- pow2_Z in Ha1 by lia.
  rewrite Zlt_Qlt, <- pow2_Z in Ha2 by lia.
  rewrite Zle_Qle, <- pow2_Z in Hb1 by lia.
  rewrite Zlt_Qlt, <- pow2_Z in Hb2 by lia.
  pose proof (pow2_pos a). pose proof (pow2_pos b).
  pose proof (pow2_pos (a - b)) as Hp.
  (* 2^(a-b-1) < |x| < 2^(a-b+1) *)
  assert (Hlow : 2 ^ (a - b - 1) < Qabs (n # d)).
  { rewrite Habs. apply Qlt_shift_div_l; [done|].
    apply Qlt_le_trans with (2 ^ (a - b - 1) * 2 ^ (b + 1)).
    - apply Qmult_lt_l; [apply pow2_pos|done].
    - rewrite <- pow2_plus. by replace (a - b - 1 + (b + 1))%Z with a by lia. }
  assert (Hhigh : Qabs (n # d) < 2 ^ (a - b + 1)).
  { rewrite Habs. apply Qlt_shift_div_r; [done|].
    apply Qlt_le_trans with (2 ^ (a + 1)); [done|].
    replace (a + 1)%Z with (a - b + 1 + b)%Z by lia. rewrite pow2_plus.
    apply Qmult_le_l; [apply pow2_pos|done]. }
  destruct (Qle_bool (2 ^ (a - b)) (Qabs (n # d))) eqn:E.
  - apply Qle_bool_iff in E. by split.
  - split; [by apply Qlt_le_weak|].
    replace (a - b - 1 + 1)%Z with (a - b)%Z by lia.
    apply Qnot_le_lt. intros Hle. apply Qle_bool_iff in Hle. congruence.
Qed.

Lemma exponentOf_unique (x : Q) (e : Z) :
  2 ^ e <= Qabs x -> Qabs x < 2 ^ (e + 1) -> Double.exponentOf x = e.
Proof.
  intros H1 H2.
  assert (Hx : ~ x == 0).
  { intros H0. rewrite H0 in H1. pose proof (pow2_pos e). change (Qabs 0) with 0 in H1. lra. }
  destruct (exponentOf_spec x Hx) as [H3 H4].
  assert ((e < Double.exponentOf x + 1)%Z) by (apply pow2_lt_inv; lra).
  assert ((Double.exponentOf x < e + 1)%Z) by (apply pow2_lt_inv; lra).
  lia.
Qed.

Lemma exponentOf_compat (x y : Q) :
  ~ x == 0 -> x == y -> Double.exponentOf x = Double.exponentOf y.
Proof.
  intros Hx Hxy. symmetry. destruct (exponentOf_spec x Hx) as [H1 H2].
  apply exponentOf_unique; by rewrite <- Hxy.
Qed.

Lemma quantum_compat (x y : Q) :
  ~ x == 0 -> x == y -> Double.quantum x = Double.quantum y.
Proof. intros Hx Hxy. unfold Double.quantum. by rewrite (exponentOf_compat x y). Qed.

Lemma round_nonzero (x : Q) :
  ~ x == 0 ->
  Double.round x
  = inject_Z (Double.roundHalfEven (x / 2 ^ Double.quantum x)) * 2 ^ Double.quantum x.
Proof.
  intros Hx. unfold Double.round. destruct (Qeq_bool x 0) eqn:E; [|done].
  apply Qeq_bool_iff in E. done.
Qed.

Lemma round_0 (x : Q) : x == 0 -> Double.round x = 0.
Proof.
  intros Hx. unfold Double.round. destruct (Qeq_bool x 0) eqn:E; [done|].
  apply Qeq_bool_neq in E. done.
Qed.

#[global] Instance round_compat : Proper (Qeq ==> Qeq) Double.round.
Proof.
  intros x y Hxy. destruct (Qeq_dec x 0) as [H0 | Hx].
  - rewrite (round_0 x H0), (round_0 y); [done|]. by rewrite <- Hxy.
  - rewrite (round_nonzero x Hx), (round_nonzero y) by (by rewrite <- Hxy).
    rewrite (quantum_compat x y Hx Hxy). by rewrite Hxy.
Qed.

(** A multiple [b * 2^quantum] on one side of [x] is on that side of the
    rounded [x]. *)
Lemma round_le_multiple (x : Q) (b : Z) :
  ~ x == 0 -> x <= inject_Z b * 2 ^ Double.quantum x ->
  Double.round x <= inject_Z b * 2 ^ Double.quantum x.
Proof.
  intros Hx Hb. rewrite (round_nonzero x Hx).
  pose proof (pow2_pos (Double.quantum x)) as Hp.
  apply Qmult_le_compat_r; [|lra]. rewrite <- Zle_Qle.
  rewrite <- (roundHalfEven_Z b). apply roundHalfEven_monotone.
  apply Qle_shift_div_r; done.
Qed.

Lemma round_ge_multiple (x : Q) (b : Z) :
  ~ x == 0 -> inject_Z b * 2 ^ Double.quantum x <= x ->
  inject_Z b * 2 ^ Double.quantum x <= Double.round x.
Proof.
  intros Hx Hb. rewrite (round_nonzero x Hx).
  pose proof (pow2_pos (Double.quantum x)) as Hp.
  apply Qmult_le_compat_r; [|lra]. rewrite <- Zle_Qle.
  rewrite <- (roundHalfEven_Z b) at 1. apply roundHalfEven_monotone.
  apply Qle_shift_div_l; done.
Qed.

Lemma round_nonneg (x : Q) : 0 <= x -> 0 <= Double.round x.
Proof.
  intros Hx. destruct (Qeq_dec x 0) as [H0 | Hne]; [by rewrite round_0|].
  pose proof (round_ge_multiple x 0 Hne) as H. change (inject_Z 0) with 0 in H. lra.
Qed.

Lemma round_nonpos (x : Q) : x <= 0 -> Double.round x <= 0.
Proof.
  intros Hx. destruct (Qeq_dec x 0) as [H0 | Hne]; [by rewrite round_0|].
  pose proof (round_le_multiple x 0 Hne) as H. change (inject_Z 0) with 0 in H. lra.
Qed.

(** A number that is a multiple of its quantum is a double. *)
Lemma round_multiple (x : Q) (b : Z) :
  x == inject_Z b * 2 ^ Double.quantum x -> Double.round x == x.
Proof.
  intros Hb. destruct (Qeq_dec x 0) as [H0 | Hne].
  { rewrite (round_0 x H0). by rewrite H0. }
  assert (H1 : x <= inject_Z b * 2 ^ Double.quantum x) by (apply Qle_lteq; by right).
  assert (H2 : inject_Z b * 2 ^ Double.quantum x <= x) by (apply Qle_lteq; by right).
  pose proof (round_le_multiple x b Hne H1). pose proof (round_ge_multiple x b Hne H2).
  lra.
Qed.

Lemma exponentOf_pos_monotone (x y : Q) :
  0 < x -> x <= y -> (Double.exponentOf x <= Double.exponentOf y)%Z.
Proof.
  intros Hx Hxy.
  destruct (exponentOf_spec x) as [H1 H2]; [lra|].
  destruct (exponentOf_spec y) as [H3 H4]; [lra|].
  rewrite Qabs_pos in H1, H2, H3, H4 by lra.
  assert ((Double.exponentOf x < Double.exponentOf y + 1)%Z) by (apply pow2_lt_inv; lra).
  lia.
Qed.

Lemma exponentOf_neg_monotone (x y : Q) :
  x <= y -> y < 0 -> (Double.exponentOf y <= Double.exponentOf x)%Z.
Proof.
  intros Hxy Hy.
  destruct (exponentOf_spec x) as [H1 H2]; [lra|].
  destruct (exponentOf_spec y) as [H3 H4]; [lra|].
  rewrite Qabs_neg in H1, H2, H3, H4 by lra.
  assert ((Double.exponentOf y < Double.exponentOf x + 1)%Z) by (apply pow2_lt_inv; lra).
  lia.
Qed.

(** Rounding is monotone. *)
Lemma round_monotone (x y : Q) : x <= y -> Double.round x <= Double.round y.
Proof.
  intros Hxy.
  destruct (Qlt_le_dec 0 x) as [Hx | Hx].
  - (* 0 < x <= y *)
    pose proof (exponentOf_pos_monotone x y Hx Hxy) as He.
    destruct (exponentOf_spec x) as [H1 H2]; [lra|].
    destruct (exponentOf_spec y) as [H3 H4]; [lra|].
    rewrite Qabs_pos in H1, H2, H3, H4 by lra.
    destruct (Z.eq_dec (Double.quantum x) (Double.quantum y)) as [Hq | Hq].
    + rewrite (round_nonzero x), (round_nonzero y) by lra. rewrite Hq.
      pose proof (pow2_pos (Double.quantum y)) as Hp.
      apply Qmult_le_compat_r; [|lra]. rewrite <- Zle_Qle.
      apply roundHalfEven_monotone. apply Qmult_le_compat_r; [done|].
      apply Qlt_le_weak, Qinv_lt_0_compat, Hp.
    + unfold Double.quantum in Hq.
      set (B := 2 ^ Double.exponentOf y).
      apply Qle_trans with B.
      * unfold B.
        rewrite (pow2_split (Double.exponentOf y) (Double.quantum x))
          by (unfold Double.quantum; lia).
        apply round_le_multiple; [lra|].
        rewrite <- pow2_split by (unfold Double.quantum; lia).
        apply Qle_trans with (2 ^ (Double.exponentOf x + 1)); [lra|].
        apply pow2_le. lia.
      * unfold B.
        rewrite (pow2_split (Double.exponentOf y) (Double.quantum y))
          by (unfold Double.quantum; lia).
        apply round_ge_multiple; [lra|].
        by rewrite <- pow2_split by (unfold Double.quantum; lia).
  - destruct (Qlt_le_dec y 0) as [Hy | Hy].
    + (* x <= y < 0 *)
      pose proof (exponentOf_neg_monotone x y Hxy Hy) as He.
      destruct (exponentOf_spec x) as [H1 H2]; [lra|].
      destruct (exponentOf_spec y) as [H3 H4]; [lra|].
      rewrite Qabs_neg in H1, H2, H3, H4 by lra.
      destruct (Z.eq_dec (Double.quantum x) (Double.quantum y)) as [Hq | Hq].
      * rewrite (round_nonzero x), (round_nonzero y) by lra. rewrite Hq.
        pose proof (pow2_pos (Double.quantum y)) as Hp.
        apply Qmult_le_compat_r; [|lra]. rewrite <- Zle_Qle.
        apply roundHalfEven_monotone. apply Qmult_le_compat_r; [done|].
        apply Qlt_le_weak, Qinv_lt_0_compat, Hp.
      * unfold Double.quantum in Hq.
        set (B := - 2 ^ Double.exponentOf x).
        assert (HBx : B == inject_Z (- 2 ^ (Double.exponentOf x - Double.quantum x))
                           * 2 ^ Double.quantum x).
        { unfold B. rewrite inject_Z_opp.
          rewrite (pow2_split (Double.exponentOf x) (Double.quantum x)) at 1
            by (unfold Double.quantum; lia).
          ring. }
        assert (HBy : B == inject_Z (- 2 ^ (Double.exponentOf x - Double.quantum y))
                           * 2 ^ Double.quantum y).
        { unfold B. rewrite inject_Z_opp.
          rewrite (pow2_split (Double.exponentOf x) (Double.quantum y)) at 1
            by (unfold Double.quantum; lia).
          ring. }
        apply Qle_trans with B.
        -- rewrite HBx. apply round_le_multiple; [lra|]. rewrite <- HBx. unfold B. lra.
        -- rewrite HBy. apply round_ge_multiple; [lra|]. rewrite <- HBy. unfold B.
           assert (2 ^ (Double.exponentOf y + 1) <= 2 ^ Double.exponentOf x)
             by (apply pow2_le; lia).
           lra.
    + apply Qle_trans with 0; [by apply round_nonpos|by apply round_nonneg].
Qed.

(** Integers below [2^53] in absolute value are doubles. *)
Lemma round_Z (n : Z) : (Z.abs n < 2 ^ 53)%Z -> Double.round (inject_Z n) == inject_Z n.
Proof.
  intros Hn. destruct (Z.eq_dec n 0%Z) as [-> | Hne]; [done|].
  assert (Hx : ~ inject_Z n == 0).
  { intros H. apply Hne. unfold Qeq in H. cbn in H. lia. }
  destruct (exponentOf_spec _ Hx) as [H1 H2].
  assert (Habs : Qabs (inject_Z n) == inject_Z (Z.abs n)) by reflexivity.
  assert (He : (Double.exponentOf (inject_Z n) < 53)%Z).
  { apply pow2_lt_inv. apply Qle_lt_trans with (Qabs (inject_Z n)); [done|].
    rewrite Habs, (pow2_Z 53) by lia. by rewrite <- Zlt_Qlt. }
  assert (Hq : (-1074 <= Double.quantum (inject_Z n) <= 0)%Z)
    by (unfold Double.quantum; lia).
  apply (round_multiple _ (n * 2 ^ (- Double.quantum (inject_Z n)))).
  rewrite inject_Z_mult, <- pow2_Z by lia.
  rewrite <- Qmult_assoc, <- pow2_plus.
  replace (- Double.quantum (inject_Z n) + Double.quantum (inject_Z n))%Z with 0%Z by lia.
  change (2 ^ 0) with 1. ring.
Qed.

Lemma inject_Z_sub (a b : Z) : inject_Z (a - b) == inject_Z a - inject_Z b.
Proof. unfold Z.sub. rewrite inject_Z_plus, inject_Z_opp. ring. Qed.

Lemma roundHalfEven_below (x : Q) (N : Z) :
  x < inject_Z N - (1 # 2) -> (Double.roundHalfEven x <= N - 1)%Z.
Proof.
  intros Hx. pose proof (Qfloor_le x) as Hf. pose proof (roundHalfEven_bounds x) as Hb.
  assert (Hlt : (Qfloor x < N)%Z) by (rewrite Zlt_Qlt; lra).
  destruct (Z.eq_dec (Qfloor x) (N - 1)%Z) as [Heq | Hne]; [|lia].
  unfold Double.roundHalfEven. rewrite Heq.
  destruct (Qcompare_spec (x - inject_Z (N - 1)) (1 # 2)) as [H|H|H]; [| lia |].
  - rewrite inject_Z_sub in H. change (inject_Z 1) with 1 in H. lra.
  - rewrite inject_Z_sub in H. change (inject_Z 1) with 1 in H. lra.
Qed.

Lemma quantum_min (x : Q) : (-1074 <= Double.quantum x)%Z.
Proof. unfold Double.quantum. lia. Qed.

(** A rounded number is a multiple of every power of two up to its
    quantum, in particular of [2^-1074]. *)
Lemma round_is_multiple (x : Q) (j : Z) :
  (j <= Double.quantum x)%Z -> exists M : Z, Double.round x == inject_Z M * 2 ^ j.
Proof.
  intros Hj. destruct (Qeq_dec x 0) as [H0 | Hne].
  - exists 0%Z. rewrite (round_0 x H0). change (inject_Z 0) with 0. ring.
  - exists (Double.roundHalfEven (x / 2 ^ Double.quantum x) * 2 ^ (Double.quantum x - j))%Z.
    rewrite (round_nonzero x Hne), inject_Z_mult, <- pow2_Z by lia.
    rewrite <- Qmult_assoc, <- pow2_plus.
    by replace (Double.quantum x - j + j)%Z with (Double.quantum x) by lia.
Qed.

Lemma isDouble_is_multiple (x : Q) (j : Z) :
  Double.isDouble x -> (j <= Double.quantum x)%Z -> exists M : Z, x == inject_Z M * 2 ^ j.
Proof.
  intros Hx Hj. destruct (round_is_multiple x j Hj) as [M HM].
  exists M. transitivity (Double.round x); [symmetry; exact Hx | exact HM].
Qed.

Lemma exponentOf_ge (x : Q) (e : Z) : 2 ^ e <= Qabs x -> (e <= Double.exponentOf x)%Z.
Proof.
  intros He.
  assert (Hx : ~ x == 0).
  { intros H0. rewrite H0 in He. pose proof (pow2_pos e). change (Qabs 0) with 0 in He. lra. }
  destruct (exponentOf_spec x Hx) as [H1 H2].
  assert ((e < Double.exponentOf x + 1)%Z) by (apply pow2_lt_inv; lra).
  lia.
Qed.

(** Doubling is exact (overflow is not part of the model). *)
Lemma round_twice (x : Q) (M : Z) :
  x == inject_Z M * 2 ^ (-1074) -> Double.round (2 * x) == 2 * Double.round x.
Proof.
  intros HM. destruct (Qeq_dec x 0) as [H0 | Hne].
  { rewrite (round_0 x H0), (round_0 (2 * x)); [ring|]. rewrite H0. ring. }
  assert (Hne2 : ~ 2 * x == 0) by (intros H; apply Hne; lra).
  destruct (exponentOf_spec x Hne) as [H1 H2].
  assert (He : Double.exponentOf (2 * x) = (Double.exponentOf x + 1)%Z).
  { apply exponentOf_unique.
    - rewrite Qabs_Qmult, pow2_plus. change (Qabs 2) with 2. change (2 ^ 1) with 2. lra.
    - rewrite Qabs_Qmult, pow2_plus. change (Qabs 2) with 2. change (2 ^ 1) with 2. lra. }
  destruct (Z_le_gt_dec (-1074) (Double.exponentOf x - 52)) as [Hnormal | Hsub].
  - assert (Hq : Double.quantum (2 * x) = (Double.quantum x + 1)%Z)
      by (unfold Double.quantum; lia).
    rewrite (round_nonzero x Hne), (round_nonzero (2 * x) Hne2), Hq.
    assert (Hp : 2 ^ (Double.quantum x + 1) == 2 ^ Double.quantum x * 2)
      by (by rewrite pow2_plus).
    assert (Hsame : 2 * x / 2 ^ (Double.quantum x + 1) == x / 2 ^ Double.quantum x).
    { rewrite Hp. pose proof (pow2_pos (Double.quantum x)). field. lra. }
    rewrite (roundHalfEven_compat _ _ Hsame), Hp. ring.
  - assert (Hq : Double.quantum x = (-1074)%Z) by (unfold Double.quantum; lia).
    assert (Hq2 : Double.quantum (2 * x) = (-1074)%Z) by (unfold Double.quantum; lia).
    rewrite (round_multiple x M) by (by rewrite Hq).
    apply (round_multiple _ (2 * M)). rewrite Hq2, inject_Z_mult, HM.
    change (inject_Z 2) with 2. ring.
Qed.

Lemma round_scale_pow2 (j : nat) (x : Q) (M : Z) :
  x == inject_Z M * 2 ^ (-1074) ->
  Double.round (2 ^ Z.of_nat j * x) == 2 ^ Z.of_nat j * Double.round x.
Proof.
  intros HM. induction j as [|j IH].
  - change (2 ^ Z.of_nat 0) with 1. by rewrite !Qmult_1_l.
  - rewrite Nat2Z.inj_succ. unfold Z.succ. rewrite pow2_plus. change (2 ^ 1) with 2.
    assert (Heq : 2 ^ Z.of_nat j * 2 * x == 2 * (2 ^ Z.of_nat j * x)) by ring.
    rewrite Heq.
    rewrite (round_twice _ (M * 2 ^ Z.of_nat j)).
    + rewrite IH. ring.
    + rewrite HM, inject_Z_mult, <- pow2_Z by lia. ring.
Qed.

(** For an integer [1 <= n < 2^53] and a factor [t <= 1 - 2^-53] (every
    double below 1), the rounded product [t * n] is below [n]. *)
Lemma round_product_below (t : Q) (n : Z) :
  (1 <= n < 2 ^ 53)%Z -> 0 <= t -> t <= 1 - 2 ^ (-53) ->
  Double.round (t * inject_Z n) < inject_Z n.
Proof.
  intros Hn Ht0 Ht1.
  assert (Hn1 : 1 <= inject_Z n) by (change 1 with (inject_Z 1); rewrite <- Zle_Qle; lia).
  assert (Hn53 : inject_Z n < 2 ^ 53) by (rewrite (pow2_Z 53), <- Zlt_Qlt; lia).
  assert (Hnz : ~ inject_Z n == 0) by lra.
  set (E := Double.exponentOf (inject_Z n)).
  destruct (exponentOf_spec _ Hnz) as [H1 H2]. fold E in H1, H2.
  rewrite Qabs_pos in H1, H2 by lra.
  assert (HE0 : (0 <= E)%Z).
  { assert ((0 < E + 1)%Z); [|lia]. apply pow2_lt_inv. change (2 ^ 0) with 1. lra. }
  assert (HE52 : (E < 53)%Z) by (apply pow2_lt_inv; lra).
  assert (Hq0 : 0 <= t * inject_Z n) by (apply Qmult_le_0_compat; lra).
  assert (Hq1 : t * inject_Z n <= inject_Z n - 2 ^ (-53) * inject_Z n).
  { assert (H : t * inject_Z n <= (1 - 2 ^ (-53)) * inject_Z n)
      by (apply Qmult_le_compat_r; lra).
    lra. }
  pose proof (pow2_pos (-53)) as Hp53.
  destruct (Qlt_le_dec (2 ^ E) (inject_Z n)) as [Habove | Hpow].
  - (* n is not a power of two *)
    destruct (Qlt_le_dec (t * inject_Z n) (2 ^ E)) as [Hlow | Hhigh].
    + apply Qle_lt_trans with (2 ^ E); [|done].
      assert (Hr : Double.round (2 ^ E) == 2 ^ E).
      { rewrite (pow2_Z E) by lia. apply round_Z.
        rewrite Z.abs_eq by lia. apply Z.pow_lt_mono_r; lia. }
      rewrite <- Hr. apply round_monotone. lra.
    + set (q := t * inject_Z n) in *.
      assert (Hqz : ~ q == 0) by (pose proof (pow2_pos E); lra).
      assert (Hqe : Double.exponentOf q = E).
      { apply exponentOf_unique; rewrite Qabs_pos by lra; lra. }
      assert (Hqq : Double.quantum q = (E - 52)%Z) by (unfold Double.quantum; lia).
      pose proof (pow2_pos (E - 52)) as Hpk.
      rewrite (round_nonzero q Hqz), Hqq.
      assert (HN : inject_Z n == inject_Z (n * 2 ^ (52 - E)) * 2 ^ (E - 52)).
      { rewrite inject_Z_mult, <- pow2_Z by lia. rewrite <- Qmult_assoc, <- pow2_plus.
        replace (52 - E + (E - 52))%Z with 0%Z by lia. change (2 ^ 0) with 1. ring. }
      assert (Hr : (Double.roundHalfEven (q / 2 ^ (E - 52)) <= n * 2 ^ (52 - E) - 1)%Z).
      { apply roundHalfEven_below. apply Qlt_shift_div_r; [done|].
        apply Qle_lt_trans with (inject_Z n - 2 ^ (-53) * inject_Z n); [done|].
        assert (Hhalf : (1 # 2) * 2 ^ (E - 52) < 2 ^ (-53) * inject_Z n).
        { apply Qle_lt_trans with (2 ^ (-53) * 2 ^ E).
          - rewrite <- pow2_plus. replace (-53 + E)%Z with (-1 + (E - 52))%Z by lia.
            rewrite pow2_plus. change (2 ^ (-1)) with (1 # 2). lra.
          - apply Qmult_lt_l; done. }
        rewrite HN at 1. lra. }
      apply Qle_lt_trans with (inject_Z (n * 2 ^ (52 - E) - 1) * 2 ^ (E - 52)).
      * apply Qmult_le_compat_r; [|lra]. by rewrite <- Zle_Qle.
      * rewrite inject_Z_sub. change (inject_Z 1) with 1.
        assert (Hlt : (inject_Z (n * 2 ^ (52 - E)) - 1) * 2 ^ (E - 52)
                      == inject_Z n - 2 ^ (E - 52)) by (rewrite HN at 1; ring).
        rewrite Hlt. lra.
  - (* n = 2^E *)
    assert (Hn2 : inject_Z n == 2 ^ E) by lra.
    set (g := inject_Z (2 ^ 53 - 1) * 2 ^ (E - 53)).
    assert (Hg : g == 2 ^ E - 2 ^ (E - 53)).
    { unfold g. rewrite inject_Z_sub, <- pow2_Z by lia. change (inject_Z 1) with 1.
      assert (H : 2 ^ 53 * 2 ^ (E - 53) == 2 ^ E).
      { rewrite <- pow2_plus. by replace (53 + (E - 53))%Z with E by lia. }
      lra. }
    pose proof (pow2_pos (E - 53)) as Hpk.
    assert (Hhalf : 2 ^ (E - 53) == 2 ^ (-53) * 2 ^ E).
    { rewrite <- pow2_plus. by replace (-53 + E)%Z with (E - 53)%Z by lia. }
    assert (Hge : 2 ^ (E - 1) <= g).
    { rewrite Hg. assert (H : 2 ^ E == 2 * 2 ^ (E - 1)).
      { replace E with (1 + (E - 1))%Z at 1 by lia. rewrite pow2_plus. reflexivity. }
      assert (H' : 2 ^ (E - 53) <= 2 ^ (E - 1)) by (apply pow2_le; lia).
      lra. }
    assert (Hgq : Double.quantum g = (E - 53)%Z).
    { unfold Double.quantum.
      rewrite (exponentOf_unique g (E - 1)).
      - lia.
      - rewrite Qabs_pos; [done|]. pose proof (pow2_pos (E - 1)). lra.
      - rewrite Qabs_pos by (pose proof (pow2_pos (E - 1)); lra).
        replace (E - 1 + 1)%Z with E by lia. lra. }
    assert (Hround : Double.round g == g).
    { apply (round_multiple g (2 ^ 53 - 1)). by rewrite Hgq. }
    apply Qle_lt_trans with g.
    + rewrite <- Hround. apply round_monotone. rewrite Hg, Hhalf, <- Hn2. lra.
    + rewrite Hg, Hn2. lra.
Qed.

Lemma roundHalfEven_near (x : Q) :
  - (1 # 2) <= inject_Z (Double.roundHalfEven x) - x
  /\ inject_Z (Double.roundHalfEven x) - x <= 1 # 2.
Proof.
  pose proof (Qfloor_le x) as Hf. pose proof (Qlt_floor x) as Hc.
  rewrite inject_Z_plus in Hc. change (inject_Z 1) with 1 in Hc.
  unfold Double.roundHalfEven.
  destruct (Qcompare_spec (x - inject_Z (Qfloor x)) (1 # 2)) as [H|H|H].
  - destruct (Z.even (Qfloor x));
      rewrite ?inject_Z_plus; change (inject_Z 1) with 1; split; lra.
  - split; lra.
  - rewrite inject_Z_plus. change (inject_Z 1) with 1. split; lra.
Qed.

(** The error of a rounding: at most [2^-53] times a bound of the exact
    result, or [2^-1075] among the subnormal numbers. *)
Lemma round_error (x B : Q) :
  - B <= x -> x <= B ->
  - (2 ^ (-53) * B + 2 ^ (-1075)) <= Double.round x - x
  /\ Double.round x - x <= 2 ^ (-53) * B + 2 ^ (-1075).
Proof.
  intros Hlo Hhi.
  assert (HB : 0 <= B) by lra.
  pose proof (pow2_pos (-53)) as Hu. pose proof (pow2_pos (-1075)) as Heta.
  assert (HuB : 0 <= 2 ^ (-53) * B) by (apply Qmult_le_0_compat; lra).
  destruct (Qeq_dec x 0) as [H0 | Hne].
  { rewrite (round_0 x H0), H0. split; lra. }
  rewrite (round_nonzero x Hne).
  set (k := Double.quantum x).
  pose proof (pow2_pos k) as Hk.
  destruct (roundHalfEven_near (x / 2 ^ k)) as [Hn1 Hn2].
  assert (Hx : x / 2 ^ k * 2 ^ k == x) by (field; lra).
  assert (Herr : - ((1 # 2) * 2 ^ k)
                 <= inject_Z (Double.roundHalfEven (x / 2 ^ k)) * 2 ^ k - x
                 /\ inject_Z (Double.roundHalfEven (x / 2 ^ k)) * 2 ^ k - x
                    <= (1 # 2) * 2 ^ k).
  { assert (H1 : 0 <= (inject_Z (Double.roundHalfEven (x / 2 ^ k)) - x / 2 ^ k + (1 # 2))
                      * 2 ^ k) by (apply Qmult_le_0_compat; lra).
    assert (H2 : 0 <= ((1 # 2) - (inject_Z (Double.roundHalfEven (x / 2 ^ k)) - x / 2 ^ k))
                      * 2 ^ k) by (apply Qmult_le_0_compat; lra).
    assert (E1 : (inject_Z (Double.roundHalfEven (x / 2 ^ k)) - x / 2 ^ k + (1 # 2)) * 2 ^ k
                 == inject_Z (Double.roundHalfEven (x / 2 ^ k)) * 2 ^ k
                    - x / 2 ^ k * 2 ^ k + (1 # 2) * 2 ^ k) by ring.
    assert (E2 : ((1 # 2) - (inject_Z (Double.roundHalfEven (x / 2 ^ k)) - x / 2 ^ k)) * 2 ^ k
                 == (1 # 2) * 2 ^ k - inject_Z (Double.roundHalfEven (x / 2 ^ k)) * 2 ^ k
                    + x / 2 ^ k * 2 ^ k) by ring.
    rewrite E1 in H1. rewrite E2 in H2. rewrite Hx in H1, H2. split; lra. }
  assert (Hhalf : (1 # 2) * 2 ^ k <= 2 ^ (-53) * B + 2 ^ (-1075)).
  { unfold k, Double.quantum.
    destruct (Z.max_spec (Double.exponentOf x - 52) (-1074)) as [[_ ->] | [_ ->]].
    - change ((1 # 2) * 2 ^ (-1074)) with (2 ^ (-1075)). lra.
    - destruct (exponentOf_spec x Hne) as [He _].
      assert (Habs : Qabs x <= B) by (apply Qabs_Qle_condition; split; lra).
      assert (E : (1 # 2) * 2 ^ (Double.exponentOf x - 52)
                  == 2 ^ (-53) * 2 ^ Double.exponentOf x).
      { rewrite <- pow2_plus.
        replace (-53 + Double.exponentOf x)%Z with (-1 + (Double.exponentOf x - 52))%Z by lia.
        by rewrite pow2_plus. }
      rewrite E.
      assert (H : 2 ^ (-53) * 2 ^ Double.exponentOf x <= 2 ^ (-53) * B)
        by (apply Qmult_le_l; lra).
      lra. }
  destruct Herr. split; lra.
Qed.

(** The rounded operations agree with the primitive floats of Rocq on the
    operations of the examples below: the shares of (8, 6, 7) and their
    sum, the position and the interpolation of the percentile 5 of eight
    values of 100, the index of the value at risk at the confidence level
    [2^-50], and the equity multiple of [-7, 3] scaled by [1/10]. *)
Lemma round_agrees_with_primitive_floats :
  let lp := PrimFloat.add (machine 7)
              (PrimFloat.sub (machine 1) (PrimFloat.mul (machine 1) (PrimFloat.div (machine 6) (machine 100)))) in
  let gp := PrimFloat.mul (machine 1) (PrimFloat.div (machine 6) (machine 100)) in
  let index := PrimFloat.mul (PrimFloat.div (machine 5) (machine 100)) (PrimFloat.sub (machine 8) (machine 1)) in
  let weight := PrimFloat.sub index (machine 0) in
  let tenth := PrimFloat.div (machine 1) (machine 10) in
  let level := PrimFloat.div (machine 1) (machine (2 ^ 50)) in
  agree lp (lpProfit (calculateCatchUpDistribution 8 6 7)) = true
  /\ agree gp (gpProfit (calculateCatchUpDistribution 8 6 7)) = true
  /\ agree (PrimFloat.add lp gp)
       (Double.add (lpProfit (calculateCatchUpDistribution 8 6 7))
                   (gpProfit (calculateCatchUpDistribution 8 6 7))) = true
  /\ agree index (percentileIndex 8 5) = true
  /\ match calculatePercentile (replicate 8 100) 5 with
     | Some v =>
         agree (PrimFloat.add (PrimFloat.mul (machine 100) (PrimFloat.sub (machine 1) weight))
                              (PrimFloat.mul (machine 100) weight)) v
     | None => false
     end = true
  /\ agree (PrimFloat.mul (PrimFloat.sub (machine 1) (PrimFloat.div level (machine 100))) (machine 3))
       (Double.mul (Double.sub 1 (Double.div (1 # 2 ^ 50) 100)) 3) = true
  /\ match Rounded.equityMultipleOf [Double.mul (-7) (Double.div 1 10);
                                     Double.mul 3 (Double.div 1 10)] with
     | Fin q =>
         agree (PrimFloat.div (PrimFloat.add (machine 0) (PrimFloat.mul (machine 3) tenth))
                              (PrimFloat.abs (PrimFloat.mul (PrimFloat.opp (machine 7)) tenth))) q
     | _ => false
     end = true.
Proof. vm_compute. repeat split. Qed.

(** ** The ends of a sorted array *)

Lemma sortAsc_first_is_minimum (values : list Q) (m : Q) :
  sortAsc values !! 0%nat = Some m -> isMinimumOf m values.
Proof.
  intros Hm. split.
  - apply sortAsc_elem_of. by eapply list_elem_of_lookup_2.
  - apply Forall_forall. intros v Hv. apply sortAsc_elem_of in Hv.
    apply list_elem_of_lookup_1 in Hv as [i Hi].
    apply (sortAsc_ascending values 0%nat i); [lia|done..].
Qed.

Lemma sortAsc_last_is_maximum (values : list Q) (m : Q) :
  sortAsc values !! (length values - 1)%nat = Some m -> isMaximumOf m values.
Proof.
  intros Hm. split.
  - apply sortAsc_elem_of. by eapply list_elem_of_lookup_2.
  - apply Forall_forall. intros v Hv. apply sortAsc_elem_of in Hv.
    apply list_elem_of_lookup_1 in Hv as [i Hi].
    pose proof (lookup_lt_Some _ _ _ Hi) as Hlt. rewrite sortAsc_length in Hlt.
    apply (sortAsc_ascending values i (length values - 1)%nat); [lia|done..].
Qed.

(** ** Catch-up distribution *)

(** The shares of (8, 6, 7) are 7.9399999999999995 and 0.06, and their sum
    is 7.999999999999999: one unit in the last place below the total
    profit. *)
Lemma calculateCatchUpDistribution_sum_below_total :
  let d := calculateCatchUpDistribution 8 6 7 in
  lpProfit d == 4469822630165217 # 562949953421312
  /\ gpProfit d == 1080863910568919 # 18014398509481984
  /\ Double.add (lpProfit d) (gpProfit d) == 8 - (1 # 2 ^ 50)
  /\ ~ Double.add (lpProfit d) (gpProfit d) == 8.
Proof. vm_compute. repeat split; discriminate. Qed.

Lemma calculateCatchUpDistribution_without_excess
    (totalProfit catchUpPercentage lpPreferredReturn : Q) :
  Double.isDouble totalProfit ->
  totalProfit <= lpPreferredReturn ->
  let d := calculateCatchUpDistribution totalProfit catchUpPercentage lpPreferredReturn in
  gpProfit d == 0
  /\ lpProfit d == totalProfit
  /\ Double.add (lpProfit d) (gpProfit d) == totalProfit.
Proof.
  intros Hdouble Hle. cbn zeta. unfold calculateCatchUpDistribution, Math_min.
  apply Qle_bool_iff in Hle. rewrite Hle. cbn [lpProfit gpProfit].
  assert (Hrem : Double.sub totalProfit totalProfit = 0).
  { unfold Double.sub. apply round_0. ring. }
  rewrite Hrem.
  assert (Hgp : Double.mul 0 (Double.div catchUpPercentage 100) = 0).
  { unfold Double.mul. apply round_0. ring. }
  rewrite Hgp.
  assert (Hlp : Double.sub 0 0 = 0) by reflexivity.
  rewrite Hlp.
  assert (Hsum : Double.add totalProfit 0 == totalProfit).
  { unfold Double.add. rewrite Qplus_0_r. exact Hdouble. }
  split; [reflexivity|]. split; [exact Hsum|].
  unfold Double.add at 1. rewrite Qplus_0_r, Hsum. exact Hdouble.
Qed.

(** The sum of the shares, with the rounding errors of its five
    operations. *)
Lemma calculateCatchUpDistribution_sum_error
    (totalProfit catchUpPercentage lpPreferredReturn : Q) :
  0 <= lpPreferredReturn -> lpPreferredReturn <= totalProfit ->
  0 <= catchUpPercentage -> catchUpPercentage <= 100 ->
  let d := calculateCatchUpDistribution totalProfit catchUpPercentage lpPreferredReturn in
  - (2 ^ (-50) * totalProfit + 2 ^ (-1072))
    <= Double.add (lpProfit d) (gpProfit d) - totalProfit
  /\ Double.add (lpProfit d) (gpProfit d) - totalProfit
     <= 2 ^ (-50) * totalProfit + 2 ^ (-1072).
Proof.
  intros HP0 HPT Hc0 Hc100. cbn zeta.
  unfold calculateCatchUpDistribution. cbn [lpProfit gpProfit].
  set (lp0 := Math_min totalProfit lpPreferredReturn).
  assert (Hlp0 : lp0 == lpPreferredReturn).
  { unfold lp0, Math_min. destruct (Qle_bool totalProfit lpPreferredReturn) eqn:E; [|done].
    apply Qle_bool_iff in E. lra. }
  unfold Double.add, Double.sub, Double.mul.
  set (c := Double.div catchUpPercentage 100).
  assert (Hc : 0 <= c /\ c <= 1).
  { split.
    - apply round_nonneg. apply Qle_shift_div_l; [reflexivity|]. lra.
    - assert (Hr : Double.round 1 == 1) by reflexivity.
      rewrite <- Hr. apply round_monotone. apply Qle_shift_div_r; [reflexivity|]. lra. }
  destruct Hc as [Hc1 Hc2].
  set (x1 := totalProfit - lp0).
  set (rem := Double.round x1).
  destruct (round_error x1 totalProfit) as [E1a E1b]; [unfold x1; lra..|].
  assert (Hrem0 : 0 <= rem) by (apply round_nonneg; unfold x1; lra).
  fold rem in E1a, E1b.
  set (x2 := rem * c).
  assert (Hx2 : 0 <= x2 /\ x2 <= rem).
  { split; [by apply Qmult_le_0_compat|].
    assert (H : 0 <= rem * (1 - c)) by (apply Qmult_le_0_compat; lra).
    unfold x2. lra. }
  destruct Hx2 as [Hx2a Hx2b].
  set (gp := Double.round x2).
  destruct (round_error x2 rem) as [E2a E2b]; [lra..|].
  assert (Hgp0 : 0 <= gp) by (by apply round_nonneg).
  fold gp in E2a, E2b.
  set (x3 := rem - gp).
  set (r2 := Double.round x3).
  change (2 ^ (-53)) with (1 # 9007199254740992) in *.
  set (eta := 2 ^ (-1075)) in *.
  assert (Heta : 0 < eta) by reflexivity.
  destruct (round_error x3 (rem + (1 # 9007199254740992) * rem + eta)) as [E3a E3b];
    [unfold x3; lra..|].
  fold r2 in E3a, E3b.
  change (2 ^ (-53)) with (1 # 9007199254740992) in E3a, E3b. fold eta in E3a, E3b.
  set (x4 := lp0 + r2).
  set (lp := Double.round x4).
  set (B3 := rem + (1 # 9007199254740992) * rem + eta) in *.
  set (E3 := (1 # 9007199254740992) * B3 + eta) in *.
  set (B4 := lpPreferredReturn + B3 + E3).
  destruct (round_error x4 B4) as [E4a E4b].
  1, 2: unfold B4, E3, B3, x4, x3 in *; lra.
  fold lp in E4a, E4b.
  change (2 ^ (-53)) with (1 # 9007199254740992) in E4a, E4b. fold eta in E4a, E4b.
  set (E4 := (1 # 9007199254740992) * B4 + eta) in *.
  set (x5 := lp + gp).
  set (B5 := B4 + E4 + B3).
  destruct (round_error x5 B5) as [E5a E5b].
  1, 2: unfold B5, E4, B4, E3, B3, x5, x4, x3 in *; lra.
  change (2 ^ (-53)) with (1 # 9007199254740992) in E5a, E5b. fold eta in E5a, E5b.
  change (2 ^ (-50)) with (1 # 1125899906842624).
  assert (H8 : 2 ^ (-1072) == 8 * eta) by reflexivity.
  rewrite H8.
  unfold B5, E4, B4, E3, B3, x5, x4, x3, x2, x1 in *. split; lra.
Qed.

(** C5 (corrected): the two shares of the catch-up distribution sum to the
    total profit up to rounding, not exactly: every operation of
    [calculateCatchUpDistribution] is rounded.  For a preferred return
    between 0 and the total profit and a catch-up percentage between 0 and
    100, the sum of the shares, as the code computes it, differs from the
    total profit by at most [2^-50] times the total profit (and [2^-1072]
    for the subnormal numbers).  The sum is exact when the total profit
    does not exceed the preferred return: the GP share is then 0 and the
    LP share is the total profit.  (The total profit is at most [2^1023],
    so that no operation overflows.) *)
Theorem calculateCatchUpDistribution_conserves_up_to_rounding
    (totalProfit catchUpPercentage lpPreferredReturn : Q) :
  Double.isDouble totalProfit ->
  totalProfit <= 2 ^ 1023 ->
  let d := calculateCatchUpDistribution totalProfit catchUpPercentage lpPreferredReturn in
  (totalProfit <= lpPreferredReturn ->
   gpProfit d == 0
   /\ lpProfit d == totalProfit
   /\ Double.add (lpProfit d) (gpProfit d) == totalProfit)
  /\ (0 <= lpPreferredReturn -> lpPreferredReturn <= totalProfit ->
      0 <= catchUpPercentage -> catchUpPercentage <= 100 ->
      Qabs (Double.add (lpProfit d) (gpProfit d) - totalProfit)
      <= 2 ^ (-50) * totalProfit + 2 ^ (-1072)).
Proof.
  intros Hdouble _. cbn zeta. split.
  - intros Hle.
    apply (calculateCatchUpDistribution_without_excess _ _ _ Hdouble Hle).
  - intros HP0 HPT Hc0 Hc100. apply Qabs_Qle_condition.
    apply (calculateCatchUpDistribution_sum_error _ _ _ HP0 HPT Hc0 Hc100).
Qed.

Lemma calculateCatchUpDistribution_conserves_up_to_rounding_witness :
  let d := calculateCatchUpDistribution 8 6 7 in
  Qabs (Double.add (lpProfit d) (gpProfit d) - 8) <= 2 ^ (-50) * 8 + 2 ^ (-1072).
Proof.
  apply (calculateCatchUpDistribution_conserves_up_to_rounding 8 6 7);
    [reflexivity|discriminate..].
Defined.

(** ** Value at risk *)

Lemma Qfloor_in_range (x : Q) (n : Z) :
  0 <= x -> x < inject_Z n -> (0 <= Qfloor x < n)%Z.
Proof.
  intros Hlo Hhi. split.
  - rewrite <- (Qfloor_Z 0). by apply Qfloor_resp_le.
  - rewrite Zlt_Qlt. eapply Qle_lt_trans; [apply Qfloor_le|done].
Qed.

Lemma div_100_monotone (c1 c2 : Q) : c1 <= c2 -> Double.div c1 100 <= Double.div c2 100.
Proof.
  intros H. unfold Double.div. apply round_monotone.
  apply Qmult_le_compat_r; [done|]. discriminate.
Qed.

(** The rounded product of the index of [calculateVaR] is monotone in its
    factor. *)
Lemma varProduct_monotone (t1 t2 : Q) (len : nat) :
  t1 <= t2 ->
  Double.mul t1 (inject_Z (Z.of_nat len)) <= Double.mul t2 (inject_Z (Z.of_nat len)).
Proof.
  intros H. unfold Double.mul. apply round_monotone.
  apply Qmult_le_compat_r; [done|].
  change 0 with (inject_Z 0). rewrite <- Zle_Qle. lia.
Qed.

Lemma varIndex_antitone (len : nat) (c1 c2 : Q) :
  c1 <= c2 -> (varIndex len c2 <= varIndex len c1)%Z.
Proof.
  intros H. unfold varIndex. apply Qfloor_resp_le, varProduct_monotone.
  unfold Double.sub. apply round_monotone.
  pose proof (div_100_monotone c1 c2 H). lra.
Qed.

Lemma varIndex_100 (len : nat) : varIndex len 100 = 0%Z.
Proof.
  unfold varIndex.
  assert (H : Double.sub 1 (Double.div 100 100) = 0) by reflexivity.
  rewrite H. unfold Double.mul. rewrite round_0; [reflexivity|ring].
Qed.

(** From [100 * 2^-53] (about 1.1e-14) to 100 the index is inside the
    array. *)
Lemma varIndex_in_range (len : nat) (c : Q) :
  (0 < Z.of_nat len < 2 ^ 53)%Z ->
  100 * 2 ^ (-53) <= c -> c <= 100 ->
  (0 <= varIndex len c < Z.of_nat len)%Z.
Proof.
  intros Hlen Hlo Hhi. unfold varIndex.
  assert (Hf1 : 2 ^ (-53) <= Double.div c 100).
  { assert (Hr : Double.round (2 ^ (-53)) == 2 ^ (-53)) by reflexivity.
    rewrite <- Hr. unfold Double.div. apply round_monotone.
    apply Qle_shift_div_l; [reflexivity|]. lra. }
  assert (Hf2 : Double.div c 100 <= 1).
  { assert (Hr : Double.round 1 == 1) by reflexivity.
    rewrite <- Hr. unfold Double.div. apply round_monotone.
    apply Qle_shift_div_r; [reflexivity|]. lra. }
  set (t := Double.sub 1 (Double.div c 100)).
  assert (Ht0 : 0 <= t) by (apply round_nonneg; lra).
  assert (Ht1 : t <= 1 - 2 ^ (-53)).
  { assert (Hr : Double.round (1 - 2 ^ (-53)) == 1 - 2 ^ (-53)) by reflexivity.
    rewrite <- Hr. apply round_monotone. lra. }
  apply Qfloor_in_range.
  - apply round_nonneg. apply Qmult_le_0_compat; [done|].
    change 0 with (inject_Z 0). rewrite <- Zle_Qle. lia.
  - apply round_product_below; [lia|done..].
Qed.

(** Up to [100 * 2^-54] (about 5.5e-15), and so for every confidence level
    that is zero or negative, [1 - c / 100] is computed as 1 or more and
    the index is the length or more. *)
Lemma varIndex_too_large (len : nat) (c : Q) :
  (Z.of_nat len < 2 ^ 53)%Z ->
  c <= 100 * 2 ^ (-54) ->
  (Z.of_nat len <= varIndex len c)%Z.
Proof.
  intros Hlen Hc. unfold varIndex.
  assert (Hf : Double.div c 100 <= 2 ^ (-54)).
  { assert (Hr : Double.round (2 ^ (-54)) == 2 ^ (-54)) by reflexivity.
    rewrite <- Hr. unfold Double.div. apply round_monotone.
    apply Qle_shift_div_r; [reflexivity|]. lra. }
  set (t := Double.sub 1 (Double.div c 100)).
  assert (Ht : 1 <= t).
  { assert (Hr : Double.round (1 - 2 ^ (-54)) == 1) by reflexivity.
    rewrite <- Hr. apply round_monotone. lra. }
  assert (Hge : inject_Z (Z.of_nat len) <= Double.mul t (inject_Z (Z.of_nat len))).
  { pose proof (round_Z (Z.of_nat len) ltac:(lia)) as Hr.
    apply Qle_trans with (Double.round (inject_Z (Z.of_nat len))); [lra|].
    unfold Double.mul. apply round_monotone.
    assert (H0 : 0 <= inject_Z (Z.of_nat len))
      by (change 0 with (inject_Z 0); rewrite <- Zle_Qle; lia).
    assert (H1 : 0 <= (t - 1) * inject_Z (Z.of_nat len))
      by (apply Qmult_le_0_compat; lra).
    lra. }
  pose proof (Qfloor_resp_le _ _ Hge) as H. by rewrite Qfloor_Z in H.
Qed.

(** The doubles above 100 start at [100 + 2^-46]. *)
Lemma double_above_100 (c : Q) : Double.isDouble c -> 100 < c -> 100 + 2 ^ (-46) <= c.
Proof.
  intros Hc H100.
  assert (Hq : (-46 <= Double.quantum c)%Z).
  { assert ((6 <= Double.exponentOf c)%Z); [|unfold Double.quantum; lia].
    apply exponentOf_ge. rewrite Qabs_pos by lra. change (2 ^ 6) with 64. lra. }
  destruct (isDouble_is_multiple c (-46) Hc Hq) as [M HM].
  assert (HM1 : (100 * 2 ^ 46 + 1 <= M)%Z).
  { assert ((100 * 2 ^ 46 < M)%Z); [|lia].
    rewrite Zlt_Qlt. rewrite HM in H100.
    assert (H : inject_Z M == inject_Z M * 2 ^ (-46) * 2 ^ 46).
    { rewrite <- Qmult_assoc, <- pow2_plus. change (2 ^ (-46 + 46)) with 1. ring. }
    rewrite H. change (inject_Z (100 * 2 ^ 46)) with (100 * 2 ^ 46).
    apply Qmult_lt_compat_r; [reflexivity|done]. }
  rewrite HM. rewrite Zle_Qle in HM1.
  assert (H : 100 + 2 ^ (-46) == inject_Z (100 * 2 ^ 46 + 1) * 2 ^ (-46)) by reflexivity.
  rewrite H. apply Qmult_le_compat_r; [done|]. discriminate.
Qed.

(** Above 100 the index is negative, except that it is 0 for an empty
    array. *)
Lemma varIndex_negative (len : nat) (c : Q) :
  (0 < len)%nat -> Double.isDouble c -> 100 < c -> (varIndex len c < 0)%Z.
Proof.
  intros Hlen Hc H100. unfold varIndex.
  pose proof (double_above_100 c Hc H100) as Hc'.
  assert (Hf : 1 + 2 ^ (-52) <= Double.div c 100).
  { assert (Hr : Double.round ((100 + 2 ^ (-46)) / 100) == 1 + 2 ^ (-52)) by reflexivity.
    rewrite <- Hr. unfold Double.div. apply round_monotone.
    apply Qmult_le_compat_r; [done|]. discriminate. }
  set (t := Double.sub 1 (Double.div c 100)).
  assert (Ht : t <= - 2 ^ (-52)).
  { assert (Hr : Double.round (- 2 ^ (-52)) == - 2 ^ (-52)) by reflexivity.
    rewrite <- Hr. apply round_monotone. lra. }
  assert (Hn : 1 <= inject_Z (Z.of_nat len))
    by (change 1 with (inject_Z 1); rewrite <- Zle_Qle; lia).
  assert (Hp : Double.mul t (inject_Z (Z.of_nat len)) <= - 2 ^ (-52)).
  { assert (Hr : Double.round (- 2 ^ (-52)) == - 2 ^ (-52)) by reflexivity.
    rewrite <- Hr. unfold Double.mul. apply round_monotone.
    assert (H : 0 < 2 ^ (-52)) by reflexivity.
    assert (H1 : 0 <= (- 2 ^ (-52) - t) * inject_Z (Z.of_nat len))
      by (apply Qmult_le_0_compat; lra).
    assert (H2 : 0 <= 2 ^ (-52) * (inject_Z (Z.of_nat len) - 1))
      by (apply Qmult_le_0_compat; lra).
    lra. }
  assert (H : (Qfloor (Double.mul t (inject_Z (Z.of_nat len))) < 0)%Z); [|done].
  rewrite Zlt_Qlt. eapply Qle_lt_trans; [apply Qfloor_le|].
  assert (H : 0 < 2 ^ (-52)) by reflexivity. change (inject_Z 0) with 0. lra.
Qed.

(** The confidence level 1e-15 is positive, and the index that
    [calculateVaR] computes for it on three returns is 3: the result is
    [undefined]. *)
Lemma calculateVaR_undefined_at_small_confidence :
  let c := Double.round 1e-15 in
  0 < c /\ c <= 100
  /\ varIndex 3 c = 3%Z
  /\ calculateVaR [3; 1; 2] c = None.
Proof. vm_compute. repeat split; discriminate. Qed.

(** C9 (corrected): on a non-empty array and for a confidence level from
    [100 * 2^-53] (about 1.1e-14) to 100, the index that [calculateVaR]
    computes is inside the array and the result is an element of the
    input.  The result is [undefined] for every confidence level up to
    [100 * 2^-54] (about 5.5e-15: zero, the negative levels, and the small
    positive ones for which [1 - c / 100] is computed as 1), for every
    confidence level above 100, and on an empty array. *)
Theorem calculateVaR_defined (returns : list Q) (c : Q) :
  (Z.of_nat (length returns) < 2 ^ 53)%Z ->
  (returns <> [] -> 100 * 2 ^ (-53) <= c -> c <= 100 ->
   (0 <= varIndex (length returns) c < Z.of_nat (length returns))%Z
   /\ exists v, calculateVaR returns c = Some v /\ v ∈ returns)
  /\ (c <= 100 * 2 ^ (-54) -> calculateVaR returns c = None)
  /\ (Double.isDouble c -> 100 < c -> calculateVaR returns c = None)
  /\ (returns = [] -> calculateVaR returns c = None).
Proof.
  intros Hlen. unfold calculateVaR. rewrite sortAsc_length.
  split; [|split; [|split]].
  - intros Hne Hlo Hhi.
    assert (Hpos : (0 < Z.of_nat (length returns))%Z) by (destruct returns; [done|cbn; lia]).
    pose proof (varIndex_in_range (length returns) c ltac:(lia) Hlo Hhi) as Hi.
    split; [done|].
    destruct (arr_get_in_range (sortAsc returns) (varIndex (length returns) c))
      as (v & Hv & Hin); [by rewrite sortAsc_length|].
    exists v. split; [done|]. by apply sortAsc_elem_of.
  - intros Hc. apply arr_get_out_of_range. right. rewrite sortAsc_length.
    by apply varIndex_too_large.
  - intros Hd H100. apply arr_get_out_of_range.
    destruct returns as [|r returns].
    + right. cbn. unfold varIndex, Double.mul. rewrite round_0; [done|]. cbn. ring.
    + left. apply varIndex_negative; [cbn; lia|done..].
  - intros ->. cbn [sortAsc foldr length]. apply arr_get_out_of_range.
    right. unfold varIndex, Double.mul. rewrite round_0; [done|]. cbn. ring.
Qed.

Lemma calculateVaR_defined_witness :
  (0 <= varIndex 4 95 < 4)%Z
  /\ exists v, calculateVaR [-3; 5; -10; 2] 95 = Some v /\ v ∈ [-3; 5; -10; 2].
Proof.
  apply (calculateVaR_defined [-3; 5; -10; 2] 95); [done|done|discriminate..].
Defined.

(** ** IRR: the guards before the iteration *)

(** C10: for a series of fewer than two cash flows, and for time points
    whose number differs from that of the cash flows, [calculateIrr] returns
    [null] without entering the Newton loop. *)
Theorem calculateIrr_guards (cashFlows : list Q) (timePoints : option (list Z)) :
  (length cashFlows < 2)%nat
  \/ (exists times, timePoints = Some times /\ length times <> length cashFlows) ->
  calculateIrr cashFlows timePoints = None /\ irrIterations cashFlows timePoints = 0%nat.
Proof.
  intros H. unfold calculateIrr, irrIterations, calculateIrrRun.
  destruct (Nat.ltb_spec (length cashFlows) 2) as [|Hlen]; [done|].
  destruct H as [H | (times & -> & Hne)]; [lia|]. unfold timesOf.
  destruct (Nat.eqb_spec (length cashFlows) (length times)); [congruence|].
  cbn [negb fst snd]. by split.
Qed.

Lemma calculateIrr_guards_witness :
  (calculateIrr [-100] None = None /\ irrIterations [-100] None = 0%nat)
  /\ (calculateIrr [-100; 60; 60] (Some [0; 1]%Z) = None
      /\ irrIterations [-100; 60; 60] (Some [0; 1]%Z) = 0%nat).
Proof.
  split.
  - apply (calculateIrr_guards [-100] None). left. simpl. lia.
  - apply (calculateIrr_guards [-100; 60; 60] (Some [0; 1]%Z)). right.
    exists [0; 1]%Z. split; [reflexivity|simpl; lia].
Defined.

(** ** Maximum drawdown *)

Lemma drawdownLoop_ge (rest : list Q) (peak maxDrawdown : Q) :
  maxDrawdown <= drawdownLoop rest peak maxDrawdown.
Proof.
  revert peak maxDrawdown. induction rest as [|v rest IH]; intros peak m; simpl.
  - lra.
  - destruct (Qltb peak v); [apply IH|].
    eapply Qle_trans; [|apply IH].
    destruct (Math_max_cases m (if Qltb 0 peak then (peak - v) / peak else 0))
      as [[? ->] | [? ->]]; lra.
Qed.

Lemma drawdownLoop_le_1 (rest : list Q) (peak maxDrawdown : Q) :
  Forall (fun v => 0 <= v) rest -> maxDrawdown <= 1 ->
  drawdownLoop rest peak maxDrawdown <= 1.
Proof.
  revert peak maxDrawdown. induction rest as [|v rest IH]; intros peak m Hpos Hm; simpl.
  - done.
  - inversion_clear Hpos as [|? ? Hv Hrest].
    destruct (Qltb peak v) eqn:E; [by apply IH|].
    apply IH; [done|].
    assert (Hd : (if Qltb 0 peak then (peak - v) / peak else 0) <= 1).
    { destruct (Qltb 0 peak) eqn:E0; [|lra].
      apply Qltb_true in E0. apply Qle_shift_div_r; [done|]. lra. }
    destruct (Math_max_cases m (if Qltb 0 peak then (peak - v) / peak else 0))
      as [[? ->] | [? ->]]; lra.
Qed.

Lemma drawdownLoop_nondecreasing (rest : list Q) (peak maxDrawdown : Q) :
  nondecreasing (peak :: rest) -> maxDrawdown == 0 ->
  drawdownLoop rest peak maxDrawdown == 0.
Proof.
  revert peak maxDrawdown. induction rest as [|v rest IH]; intros peak m Hmono Hm.
  - done.
  - destruct Hmono as [Hpv Hmono]. cbn [drawdownLoop].
    destruct (Qltb peak v) eqn:E; [by apply IH|].
    apply Qltb_false in E.
    assert (Hd : (if Qltb 0 peak then (peak - v) / peak else 0) == 0).
    { destruct (Qltb 0 peak) eqn:E0; [|reflexivity].
      apply Qltb_true in E0. assert (Hz : peak - v == 0) by lra.
      rewrite Hz. field. lra. }
    apply IH.
    + destruct rest as [|v' rest]; [done|].
      destruct Hmono as [Hvv' Hmono]. split; [lra|done].
    + destruct (Math_max_cases m (if Qltb 0 peak then (peak - v) / peak else 0))
        as [[? ->] | [? ->]]; lra.
Qed.

(** C6, as stated, fails: on a series that falls below zero the drawdown
    exceeds 1. *)
Lemma calculateMaxDrawdown_above_1 : ~ calculateMaxDrawdown [1; -1] <= 1.
Proof. vm_compute. intros H. by apply H. Qed.

(** C6 (amended): [calculateMaxDrawdown] never returns a negative value; it
    returns at most 1 for a series without negative values; and it returns
    0 for a monotonically non-decreasing series. *)
Theorem calculateMaxDrawdown_range (values : list Q) :
  0 <= calculateMaxDrawdown values
  /\ (Forall (fun v => 0 <= v) values -> calculateMaxDrawdown values <= 1)
  /\ (nondecreasing values -> calculateMaxDrawdown values == 0).
Proof.
  destruct values as [|v0 [|v1 rest]].
  - repeat split; intros; simpl; lra.
  - repeat split; intros; simpl; lra.
  - change (calculateMaxDrawdown (v0 :: v1 :: rest)) with (drawdownLoop (v1 :: rest) v0 0).
    split; [apply drawdownLoop_ge|]. split.
    + intros Hpos. inversion_clear Hpos. apply drawdownLoop_le_1; [done|lra].
    + intros Hmono. by apply drawdownLoop_nondecreasing.
Qed.

Lemma calculateMaxDrawdown_range_witness :
  calculateMaxDrawdown [100; 80; 120; 60] <= 1
  /\ calculateMaxDrawdown [100; 100; 120] == 0.
Proof.
  split.
  - apply (calculateMaxDrawdown_range [100; 80; 120; 60]).
    repeat constructor; discriminate.
  - apply (calculateMaxDrawdown_range [100; 100; 120]).
    simpl. repeat split; discriminate.
Defined.

(** ** Equity multiple *)

Lemma Qcompare_scale (k x : Q) : 0 < k -> (k * x ?= 0) = (x ?= 0).
Proof.
  intros Hk. destruct (x ?= 0) eqn:E.
  - rewrite <- Qeq_alt in E |- *. rewrite E. ring.
  - rewrite <- Qlt_alt in E |- *.
    assert (Hnx : 0 < - x) by lra.
    assert (H1 : 0 < k * - x) by (by apply Qmult_lt_0_compat).
    assert (H2 : k * - x == - (k * x)) by ring. lra.
  - rewrite <- Qgt_alt in E |- *.
    assert (0 < k * x) by (by apply Qmult_lt_0_compat). lra.
Qed.

Lemma Math_max_0_scale (k c : Q) : 0 < k -> Math_max 0 (k * c) == k * Math_max 0 c.
Proof.
  intros Hk.
  destruct (Math_max_cases 0 (k * c)) as [[? ->] | [? ->]],
           (Math_max_cases 0 c) as [[? ->] | [? ->]]; nra.
Qed.

Lemma pow2_nat_pos (n : nat) : 0 < 2 ^ Z.of_nat n.
Proof. apply pow2_pos. Qed.

Lemma Math_max_0_multiple (c : Q) :
  Double.isDouble c -> exists M : Z, Math_max 0 c == inject_Z M * 2 ^ (-1074).
Proof.
  intros Hc. destruct (Math_max_cases 0 c) as [[_ ->] | [_ ->]].
  - apply (isDouble_is_multiple c (-1074) Hc), quantum_min.
  - exists 0%Z. change (inject_Z 0) with 0. ring.
Qed.

(** The rounded sum of the positive cash flows scales with the series. *)
Lemma roundedSum_scale (n : nat) (rest : list Q) (acc acc' : Q) (M : Z) :
  Forall Double.isDouble rest ->
  acc == inject_Z M * 2 ^ (-1074) ->
  acc' == 2 ^ Z.of_nat n * acc ->
  foldl (fun sum cf => Double.add sum (Math_max 0 cf)) acc'
        (map (Qmult (2 ^ Z.of_nat n)) rest)
  == 2 ^ Z.of_nat n * foldl (fun sum cf => Double.add sum (Math_max 0 cf)) acc rest.
Proof.
  intros Hrest. revert acc acc' M.
  induction Hrest as [|c rest Hc _ IH]; intros acc acc' M HM Hacc; cbn [map foldl]; [done|].
  destruct (Math_max_0_multiple c Hc) as [Mc HMc].
  destruct (round_is_multiple (acc + Math_max 0 c) (-1074) (quantum_min _)) as [M' HM'].
  apply (IH _ _ M'); [exact HM'|].
  unfold Double.add.
  rewrite <- (round_scale_pow2 n (acc + Math_max 0 c) (M + Mc))
    by (rewrite HM, HMc, inject_Z_plus; ring).
  apply round_compat.
  rewrite Hacc, Math_max_0_scale by apply pow2_nat_pos. ring.
Qed.

Lemma positiveReturns_scale (n : nat) (cashFlows : list Q) :
  Forall Double.isDouble cashFlows ->
  Rounded.positiveReturns (scaleCashFlows (2 ^ Z.of_nat n) cashFlows)
  == 2 ^ Z.of_nat n * Rounded.positiveReturns cashFlows.
Proof.
  intros Hall. unfold Rounded.positiveReturns, scaleCashFlows.
  destruct cashFlows as [|c0 rest]; cbn [map tail foldl]; [ring|].
  apply Forall_cons in Hall as [_ Hrest].
  apply (roundedSum_scale n rest 0 0 0 Hrest).
  - change (inject_Z 0) with 0. ring.
  - ring.
Qed.

(** The rounded quotient of two numbers scaled alike. *)
Lemma roundedDiv_scale (k x y x' y' : Q) :
  0 < k -> x' == k * x -> y' == k * y ->
  sameNumber (Double.roundNum (div (Fin x') (Fin y')))
             (Double.roundNum (div (Fin x) (Fin y))).
Proof.
  intros Hk Hx Hy. unfold div.
  rewrite Hx, Hy, !Qcompare_scale by done.
  destruct (y ?= 0) eqn:Ey.
  - by destruct (x ?= 0).
  - rewrite <- Qlt_alt in Ey. cbn [Double.roundNum sameNumber].
    apply round_compat. rewrite Hx, Hy. field. lra.
  - rewrite <- Qgt_alt in Ey. cbn [Double.roundNum sameNumber].
    apply round_compat. rewrite Hx, Hy. field. lra.
Qed.




(** ** Percentiles *)

Lemma Number_isInteger_true (x : Q) :
  Number_isInteger x = true <-> inject_Z (Qfloor x) == x.
Proof. apply Qeq_bool_iff. Qed.

Lemma Number_isInteger_false (x : Q) :
  Number_isInteger x = false <-> inject_Z (Qfloor x) < x.
Proof.
  split.
  - intros H. destruct (Qle_lt_or_eq _ _ (Qfloor_le x)) as [|Heq]; [done|].
    apply Number_isInteger_true in Heq. congruence.
  - intros H. destruct (Number_isInteger x) eqn:E; [|done].
    apply Number_isInteger_true in E. lra.
Qed.

Lemma inject_Z_pred (z : Z) : inject_Z (z - 1) == inject_Z z - 1.
Proof. unfold Z.sub. rewrite inject_Z_plus. reflexivity. Qed.

Lemma Qceiling_fraction (x : Q) :
  inject_Z (Qfloor x) < x -> Qceiling x = (Qfloor x + 1)%Z.
Proof.
  intros H.
  pose proof (Qlt_floor x). pose proof (Qle_ceiling x). pose proof (Qceiling_lt x).
  assert (Qfloor x < Qceiling x)%Z by (rewrite Zlt_Qlt; lra).
  assert (Qceiling x - 1 < Qfloor x + 1)%Z by (rewrite Zlt_Qlt; lra).
  lia.
Qed.

(** [length - 1] is computed exactly. *)
Lemma lastIndex_exact (len : nat) :
  (0 < Z.of_nat len < 2 ^ 53)%Z ->
  Double.sub (inject_Z (Z.of_nat len)) 1 == inject_Z (Z.of_nat (len - 1)).
Proof.
  intros Hlen. unfold Double.sub.
  assert (H : inject_Z (Z.of_nat len) - 1 == inject_Z (Z.of_nat (len - 1))).
  { rewrite <- inject_Z_pred. by replace (Z.of_nat len - 1)%Z with (Z.of_nat (len - 1)) by lia. }
  rewrite H. apply round_Z. lia.
Qed.

Lemma percentileIndex_0 (len : nat) : percentileIndex len 0 = 0.
Proof.
  unfold percentileIndex. change (Double.div 0 100) with 0.
  unfold Double.mul. apply round_0. ring.
Qed.

Lemma percentileIndex_100 (len : nat) :
  (0 < Z.of_nat len < 2 ^ 53)%Z ->
  percentileIndex len 100 == inject_Z (Z.of_nat (len - 1)).
Proof.
  intros Hlen. unfold percentileIndex, Double.mul.
  assert (H1 : Double.div 100 100 == 1) by reflexivity.
  rewrite H1, Qmult_1_l, (lastIndex_exact len Hlen).
  apply round_Z. lia.
Qed.

Lemma percentileIndex_monotone (len : nat) (p q : Q) :
  (0 < Z.of_nat len < 2 ^ 53)%Z ->
  p <= q -> percentileIndex len p <= percentileIndex len q.
Proof.
  intros Hlen Hpq. unfold percentileIndex, Double.mul. apply round_monotone.
  pose proof (div_100_monotone p q Hpq) as Hd.
  pose proof (lastIndex_exact len Hlen) as Hl.
  assert (H0 : 0 <= inject_Z (Z.of_nat (len - 1)))
    by (change 0 with (inject_Z 0); rewrite <- Zle_Qle; lia).
  apply Qmult_le_compat_r; [done|]. by rewrite Hl.
Qed.

(** From 0 to 100 the position is inside the array. *)
Lemma percentileIndex_range (len : nat) (p : Q) :
  (0 < Z.of_nat len < 2 ^ 53)%Z -> 0 <= p -> p <= 100 ->
  0 <= percentileIndex len p /\ percentileIndex len p <= inject_Z (Z.of_nat (len - 1)).
Proof.
  intros Hlen Hp0 Hp100. split.
  - rewrite <- (percentileIndex_0 len). by apply percentileIndex_monotone.
  - rewrite <- (percentileIndex_100 len Hlen). by apply percentileIndex_monotone.
Qed.




(** ** IRR: what a returned rate satisfies *)

Lemma newtonLoop_returns (remaining entered : nat) (cashFlows : list Q)
    (times : list Z) (guess r : num) :
  (newtonLoop remaining entered cashFlows times guess).1 = Some r ->
  lt (abs (npvAt cashFlows times r)) (Fin tolerance) = true
  \/ exists g, r = newtonUpdate cashFlows times g
               /\ lt (abs (npvAt cashFlows times g)) (Fin tolerance) = false
               /\ lt (abs (sub r g)) (Fin tolerance) = true.
Proof.
  revert entered guess.
  induction remaining as [|remaining IH]; intros entered guess; cbn [newtonLoop].
  - discriminate.
  - destruct (lt (abs (npvAt cashFlows times guess)) (Fin tolerance)) eqn:Hnpv.
    + cbn [fst]. intros [= <-]. by left.
    + destruct (lt (abs (sub (newtonUpdate cashFlows times guess) guess)) (Fin tolerance))
        eqn:Hstep.
      * cbn [fst]. intros [= <-]. right. by exists guess.
      * destruct (lt (newtonUpdate cashFlows times guess) (Fin (-1))).
        -- discriminate.
        -- apply IH.
Qed.

(** C1, as stated, fails: for the series [-1000000000, 1100000055] the
    first Newton update moves the guess by less than the tolerance, and
    [calculateIrr] returns it although the net present value there is about
    2.5e-6. *)
Lemma calculateIrr_returns_rate_with_npv_above_tolerance :
  exists r,
    calculateIrr [-1000000000; 1100000055] None = Some r
    /\ lt (abs (npvAt [-1000000000; 1100000055]
                      (timesOf [-1000000000; 1100000055] None) r))
          (Fin tolerance) = false.
Proof.
  exists (Fin (13310007986000 # 133100006655000)).
  split; vm_compute; reflexivity.
Qed.

(** C1 (amended): when [calculateIrr] returns a rate [r], either the net
    present value of the series discounted at [r] is within the tolerance
    1e-7 of zero, or [r] is the Newton update of an iterate [g] whose net
    present value is not within the tolerance, and [r] differs from [g] by
    less than the tolerance. *)
Theorem calculateIrr_returned_rate (cashFlows : list Q) (timePoints : option (list Z))
    (r : num) :
  calculateIrr cashFlows timePoints = Some r ->
  let times := timesOf cashFlows timePoints in
  lt (abs (npvAt cashFlows times r)) (Fin tolerance) = true
  \/ exists g, r = newtonUpdate cashFlows times g
               /\ lt (abs (npvAt cashFlows times g)) (Fin tolerance) = false
               /\ lt (abs (sub r g)) (Fin tolerance) = true.
Proof.
  unfold calculateIrr, calculateIrrRun.
  destruct (length cashFlows <? 2)%nat; [discriminate|].
  destruct (negb (length cashFlows =? length (timesOf cashFlows timePoints))%nat);
    [discriminate|].
  intros H. by apply newtonLoop_returns in H.
Qed.

Lemma calculateIrr_returned_rate_witness :
  lt (abs (npvAt [-100; 110] (timesOf [-100; 110] None) (Fin (1 # 10))))
     (Fin tolerance) = true
  \/ exists g, Fin (1 # 10) = newtonUpdate [-100; 110] (timesOf [-100; 110] None) g
               /\ lt (abs (npvAt [-100; 110] (timesOf [-100; 110] None) g))
                     (Fin tolerance) = false
               /\ lt (abs (sub (Fin (1 # 10)) g)) (Fin tolerance) = true.
Proof.
  apply (calculateIrr_returned_rate [-100; 110] None (Fin (1 # 10))).
  vm_compute. reflexivity.
Defined.

(** ** Memoization *)

Lemma memoizedIrr_cache (args : IrrArgs) (cache : gmap string (option num)) :
  (memoizedIrr args cache).2
  = match cache !! irrKey args.1 args.2 with
    | Some _ => cache
    | None => <[irrKey args.1 args.2 := calculateIrr args.1 args.2]> cache
    end.
Proof. unfold memoizedIrr, memoize. by destruct (cache !! irrKey args.1 args.2). Qed.

Lemma cacheAfter_lookup (calls : list IrrArgs) (cache : gmap string (option num))
    (key : string) :
  cacheAfter calls cache !! key
  = match cache !! key with
    | Some cached => Some cached
    | None => (fun a : IrrArgs => calculateIrr a.1 a.2) <$> firstWithKey key calls
    end.
Proof.
  revert cache. induction calls as [|a calls IH]; intros cache.
  - simpl. by destruct (cache !! key).
  - change (cacheAfter (a :: calls) cache) with (cacheAfter calls (memoizedIrr a cache).2).
    rewrite IH, memoizedIrr_cache. unfold firstWithKey. cbn [find].
    destruct (String.eqb_spec (irrKey a.1 a.2) key) as [<- | Hne].
    + destruct (cache !! irrKey a.1 a.2) eqn:E.
      * by rewrite E.
      * by rewrite lookup_insert_eq.
    + destruct (cache !! irrKey a.1 a.2) eqn:E; [done|].
      by rewrite lookup_insert_ne.
Qed.

Lemma firstWithKey_app (key : string) (calls : list IrrArgs) (args : IrrArgs) :
  irrKey args.1 args.2 = key ->
  firstWithKey key (calls ++ [args])
  = Some (match firstWithKey key calls with Some first => first | None => args end).
Proof.
  intros <-. unfold firstWithKey. induction calls as [|a calls IH]; cbn [app find].
  - by rewrite String.eqb_refl.
  - by destruct (String.eqb (irrKey a.1 a.2) (irrKey args.1 args.2)).
Qed.

Lemma memoizedIrr_after_calls (calls : list IrrArgs) (args : IrrArgs) :
  (memoizedIrr args (cacheAfter calls ∅)).1
  = match firstWithKey (irrKey args.1 args.2) calls with
    | Some first => calculateIrr first.1 first.2
    | None => calculateIrr args.1 args.2
    end.
Proof.
  unfold memoizedIrr, memoize. rewrite cacheAfter_lookup, lookup_empty.
  by destruct (firstWithKey (irrKey args.1 args.2) calls).
Qed.

(** C4: memoization is to be transparent, and here it is not.  A series
    without time points and the same series with an empty array of time
    points have the same key: after [memoizedIrr([-100, 110])], the call
    [memoizedIrr([-100, 110], [])] returns the cached rate 0.1, where
    [calculateIrr([-100, 110], [])] returns [null].  So do two inputs whose
    joined arrays differ in where the cash flows end: after
    [memoizedIrr([-100, 110], [0, 1])], the call
    [memoizedIrr([-100, 110, 0], [1])] returns 0.1 instead of [null]. *)
Lemma memoizedIrr_returns_result_of_other_input :
  irrKey [-100; 110] None = irrKey [-100; 110] (Some [])
  /\ (memoizedIrr ([-100; 110], Some []) (cacheAfter [([-100; 110], None)] ∅)).1
     = Some (Fin (1 # 10))
  /\ calculateIrr [-100; 110] (Some []) = None
  /\ irrKey [-100; 110] (Some [0; 1]%Z) = irrKey [-100; 110; 0] (Some [1]%Z)
  /\ (memoizedIrr ([-100; 110; 0], Some [1]%Z)
                  (cacheAfter [([-100; 110], Some [0; 1]%Z)] ∅)).1
     = Some (Fin (1 # 10))
  /\ calculateIrr [-100; 110; 0] (Some [1]%Z) = None.
Proof. vm_compute. repeat split. Qed.

(** What [memoizedIrr] returns in general: after any sequence of calls, the
    result of [calculateIrr] on the first input, among the earlier calls
    followed by the present one, that has the key of the present input; and
    so the result of [calculateIrr] on the present input whenever every
    earlier input with that key has the same IRR. *)
Theorem memoizedIrr_first_with_key (calls : list IrrArgs) (cashFlows : list Q)
    (timePoints : option (list Z)) :
  (exists first,
      firstWithKey (irrKey cashFlows timePoints) (calls ++ [(cashFlows, timePoints)])
      = Some first
      /\ (memoizedIrr (cashFlows, timePoints) (cacheAfter calls ∅)).1
         = calculateIrr first.1 first.2)
  /\ ((forall a : IrrArgs, a ∈ calls ->
         irrKey a.1 a.2 = irrKey cashFlows timePoints ->
         calculateIrr a.1 a.2 = calculateIrr cashFlows timePoints) ->
      (memoizedIrr (cashFlows, timePoints) (cacheAfter calls ∅)).1
      = calculateIrr cashFlows timePoints).
Proof.
  rewrite memoizedIrr_after_calls.
  rewrite (firstWithKey_app _ calls (cashFlows, timePoints)) by done.
  cbn [fst snd]. split.
  - eexists. split; [done|].
    by destruct (firstWithKey (irrKey cashFlows timePoints) calls).
  - intros Hsame.
    destruct (firstWithKey (irrKey cashFlows timePoints) calls) as [first|] eqn:E; [|done].
    unfold firstWithKey in E. apply find_some in E as [Hin Hkey].
    apply Hsame.
    + by apply list_elem_of_In.
    + by apply String.eqb_eq.
Qed.

Lemma memoizedIrr_first_with_key_witness :
  (memoizedIrr ([-100; 110], None) (cacheAfter [([-100; 110], None); ([5], None)] ∅)).1
  = calculateIrr [-100; 110] None.
Proof.
  apply (memoizedIrr_first_with_key [([-100; 110], None); ([5], None)] [-100; 110] None).
  intros a Ha Hkey.
  apply list_elem_of_In in Ha. simpl in Ha.
  destruct Ha as [<- | [<- | []]]; [reflexivity|].
  vm_compute in Hkey. discriminate.
Defined.

(** ** The Monte Carlo run *)

Section MonteCarloRun.

Variable randomNormal : nat -> Q.

Lemma simulateFrom_normal (count : nat) (params : MonteCarloParams) (sim : Z)
    (state : WorkerState) (results : list (option (list Q))) :
  (0 <= timeHorizon params + 1)%Z ->
  exists results' state',
    simulateFrom randomNormal count params sim state results = (Normal results', state')
    /\ length results' = length results.
Proof.
  intros Hth. revert sim state results.
  induction count as [|count IH]; intros sim state results; cbn [simulateFrom].
  - by exists results, state.
  - unfold simulateOne.
    destruct (Z.ltb_spec (timeHorizon params + 1) 0) as [|_]; [lia|].
    match goal with
    | |- context [simulateFrom _ count params (sim + 1)%Z ?st ?res] =>
        destruct (IH (sim + 1)%Z st res) as (results' & state' & -> & Hlen)
    end.
    exists results', state'. split; [done|]. by rewrite Hlen, length_insert.
Qed.

Lemma runChunk_normal (run : MonteCarloRun) (state : WorkerState) :
  (0 <= timeHorizon (runParams run) + 1)%Z ->
  exists results' state',
    runChunk randomNormal run state
    = (Normal {| runParams := runParams run; numChunks := numChunks run;
                 chunk := (chunk run + 1)%Z; results := results' |},
       state',
       if reportProgressOf (runParams run) then [chunkProgress run] else [])
    /\ length results' = length (results run).
Proof.
  intros Hth. unfold runChunk.
  match goal with
  | |- context [simulateFrom _ ?n ?p ?s state ?r] =>
      destruct (simulateFrom_normal n p s state r Hth) as (results' & state' & -> & Hlen)
  end.
  by exists results', state'.
Qed.

Lemma runChunks_normal (n : nat) (run : MonteCarloRun) (state : WorkerState) :
  (0 <= timeHorizon (runParams run) + 1)%Z ->
  exists run' state' posted,
    runChunks randomNormal n run state = (Normal run', state', posted)
    /\ runParams run' = runParams run
    /\ numChunks run' = numChunks run
    /\ chunk run' = (chunk run + Z.of_nat n)%Z
    /\ length (results run') = length (results run)
    /\ Forall isChunkProgress posted
    /\ length posted = (if reportProgressOf (runParams run) then n else 0%nat).
Proof.
  intros Hth. revert run state Hth.
  induction n as [|n IH]; intros run state Hth; cbn [runChunks].
  - exists run, state, []. repeat split; [lia|done|by destruct (reportProgressOf _)].
  - destruct (runChunk_normal run state Hth) as (results1 & state1 & -> & Hlen1).
    match goal with
    | |- context [runChunks _ n ?r state1] =>
        destruct (IH r state1 Hth)
          as (run' & state' & posted & -> & Hp & Hn & Hc & Hl & Hall & Hlen)
    end.
    cbn [runParams numChunks chunk results] in *.
    exists run', state'. eexists. split; [done|].
    repeat split; [done|done|lia|congruence| |].
    + apply Forall_app. split; [|done].
      destruct (reportProgressOf (runParams run)); [|done].
      by repeat constructor.
    + rewrite length_app, Hlen. by destruct (reportProgressOf (runParams run)).
Qed.

Lemma runChunks_app (k m : nat) (run : MonteCarloRun) (state : WorkerState) :
  runChunks randomNormal (k + m) run state
  = match runChunks randomNormal k run state with
    | (Normal run1, state1, posted1) =>
        let '(completion, state2, posted2) := runChunks randomNormal m run1 state1 in
        (completion, state2, posted1 ++ posted2)
    | thrown => thrown
    end.
Proof.
  revert run state. induction k as [|k IH]; intros run state.
  - simpl. by destruct (runChunks randomNormal m run state) as [[? ?] ?].
  - cbn [Nat.add runChunks].
    destruct (runChunk randomNormal run state) as [[[run1|message] state1] posted1]; [|done].
    rewrite IH.
    destruct (runChunks randomNormal k run1 state1) as [[[run2|message] state2] posted2];
      [|done].
    destruct (runChunks randomNormal m run2 state2) as [[completion state3] posted3].
    by rewrite app_assoc.
Qed.

(** While a run is in progress, each piece of work is its next chunk, and
    the queue is left alone. *)
Lemma work_runs_chunks (n : nat) (id : option string) (run run' : MonteCarloRun)
    (state state' : WorkerState) (posted out : list WorkerResponse)
    (waiting : list WorkerMessage) :
  (n <= Z.to_nat (numChunks run - chunk run))%nat ->
  runChunks randomNormal n run state = (Normal run', state', posted) ->
  runEvents randomNormal (repeat Work n)
    {| globals := state; inbox := waiting; inProgress := Some (id, run); outbox := out |}
  = {| globals := state'; inbox := waiting; inProgress := Some (id, run');
       outbox := out ++ posted |}.
Proof.
  unfold runEvents.
  revert run run' state state' posted out.
  induction n as [|n IH]; intros run run' state state' posted out Hn Hrun.
  - cbn in Hrun. injection Hrun as <- <- <-. by rewrite app_nil_r.
  - cbn [runChunks] in Hrun. cbn [repeat foldl step].
    destruct (runChunk randomNormal run state) as [[[run1|message] state1] posted1] eqn:E1;
      [|done].
    destruct (runChunks randomNormal n run1 state1) as [[completion state2] posted2] eqn:E2.
    injection Hrun as -> <- <-.
    assert (Hrun1 : numChunks run1 = numChunks run /\ chunk run1 = (chunk run + 1)%Z).
    { unfold runChunk in E1.
      destruct (simulateFrom _ _ _ _ _ _) as [[?|?] ?]; [|done].
      by injection E1 as <- _ _. }
    destruct Hrun1 as [Hnum Hchunk].
    assert (Hwork : work randomNormal
              {| globals := state; inbox := waiting; inProgress := Some (id, run);
                 outbox := out |}
            = {| globals := state1; inbox := waiting; inProgress := Some (id, run1);
                 outbox := out ++ posted1 |}).
    { unfold work. cbn [inProgress globals inbox outbox]. rewrite E1.
      destruct (Z.ltb_spec (chunk run) (numChunks run)) as [_|]; [done|lia]. }
    rewrite Hwork, (IH run1 run' state1 state2 posted2 (out ++ posted1));
      [by rewrite app_assoc|lia|done].
Qed.

Lemma startRun_normal (params : MonteCarloParams) :
  (0 <= numSimulations params < 2 ^ 32)%Z ->
  startRun params
  = Normal {| runParams := params;
              numChunks := Qceiling (inject_Z (numSimulations params)
                                     / inject_Z (chunkSizeOf params));
              chunk := 0;
              results := replicate (Z.to_nat (numSimulations params)) None |}.
Proof.
  intros Hn. unfold startRun.
  destruct (Z.ltb_spec (numSimulations params) 0); [lia|].
  destruct (Z.leb_spec (2 ^ 32) (numSimulations params)); [lia|done].
Qed.

(** A Monte Carlo request with array sizes in range runs all its chunks
    and ends with its results. *)
Lemma onmessage_monteCarlo (params : MonteCarloParams) (id : option string)
    (state : WorkerState) (k : nat) :
  (0 <= numSimulations params < 2 ^ 32)%Z ->
  (0 <= timeHorizon params + 1)%Z ->
  (k <= totalChunks params)%nat ->
  exists run0 run1 run2 state1 state2 posted1 posted2,
    startRun params = Normal run0
    /\ runChunks randomNormal k run0 state = (Normal run1, state1, posted1)
    /\ runChunks randomNormal (totalChunks params - k) run1 state1
       = (Normal run2, state2, posted2)
    /\ onmessage randomNormal {| request := MonteCarlo params; requestId := id |} state
       = (monteCarloStarted id :: (posted1 ++ posted2)
            ++ [monteCarloResults id (results run2)],
          state2)
    /\ chunk run0 = 0%Z
    /\ numChunks run0 = Qceiling (inject_Z (numSimulations params)
                                  / inject_Z (chunkSizeOf params))
    /\ numChunks run1 = numChunks run0 /\ chunk run1 = Z.of_nat k
    /\ numChunks run2 = numChunks run0 /\ chunk run2 = Z.of_nat (totalChunks params)
    /\ length (results run2) = Z.to_nat (numSimulations params)
    /\ Forall isChunkProgress (posted1 ++ posted2)
    /\ length (posted1 ++ posted2)
       = (if reportProgressOf params then totalChunks params else 0%nat).
Proof.
  intros Hn Hth Hk.
  pose proof (startRun_normal params Hn) as Hstart.
  set (run0 := {| runParams := params;
                  numChunks := Qceiling (inject_Z (numSimulations params)
                                         / inject_Z (chunkSizeOf params));
                  chunk := 0;
                  results := replicate (Z.to_nat (numSimulations params)) None |}) in *.
  destruct (runChunks_normal k run0 state Hth)
    as (run1 & state1 & posted1 & E1 & Hp1 & Hn1 & Hc1 & Hl1 & Hall1 & Hlen1).
  assert (Hth1 : (0 <= timeHorizon (runParams run1) + 1)%Z) by (by rewrite Hp1).
  destruct (runChunks_normal (totalChunks params - k) run1 state1 Hth1)
    as (run2 & state2 & posted2 & E2 & Hp2 & Hn2 & Hc2 & Hl2 & Hall2 & Hlen2).
  exists run0, run1, run2, state1, state2, posted1, posted2.
  split; [done|]. split; [done|]. split; [done|]. split.
  - unfold onmessage, runMonteCarloSimulation. cbn [request requestId].
    rewrite Hstart.
    replace (Z.to_nat (numChunks run0 - chunk run0))
      with (k + (totalChunks params - k))%nat
      by (unfold totalChunks in *; cbn [numChunks chunk run0]; lia).
    by rewrite runChunks_app, E1, E2.
  - cbn [chunk numChunks run0 runParams results] in *.
    repeat split; try done; try lia; try congruence.
    + by rewrite Hl2, Hl1, length_replicate.
    + by apply Forall_app.
    + rewrite length_app, Hlen1, Hlen2, Hp1.
      destruct (reportProgressOf params); lia.
Qed.

End MonteCarloRun.

(** ** Requests without validation, and cancellation *)

(** C3, as stated, fails: a Monte Carlo request whose zone allocation sums
    to 101 and whose interest rate is 250 percent is simulated; the worker
    posts its results and no error. *)
Lemma monteCarlo_runs_on_invalid_allocation :
  let params :=
    {| initialInvestment := 50000000; timeHorizon := 2; interestRate := 250;
       propertyAppreciation := 3; defaultRate := 1; volatility := 2;
       numSimulations := 3; chunkSize := None; reportProgress := None;
       zoneAllocation := Some [("green", 60); ("orange", 39); ("red", 2)];
       geographyAllocation := Some [("sydney", 70); ("melbourne", 20); ("brisbane", 10)] |} in
  let responses :=
    (onmessage (fun _ => 0) {| request := MonteCarlo params; requestId := Some "sim-1" |}
               {| cache := ∅; drawn := 0 |}).1 in
  allocationSum [("green", 60); ("orange", 39); ("red", 2)] == 101
  /\ emittedFor "error" "sim-1" responses = false
  /\ emittedFor "monteCarloResults" "sim-1" responses = true.
Proof. vm_compute. repeat split. Qed.

(** C3 (amended): the worker does not validate the parameters of a request.
    A Monte Carlo request is simulated whatever its allocation maps and its
    percentages are: when the sizes of its arrays are in range, the
    responses are the start of the progress, the progress of the chunks and
    the results, for all [numSimulations] simulations.  A negative
    [numSimulations] ends the request, after the start of the progress, with
    the error response of the [catch] clause, which carries the message of
    the exception and the type of the request. *)
Theorem monteCarlo_request_is_not_validated (randomNormal : nat -> Q)
    (params : MonteCarloParams) (id : option string) (state : WorkerState) :
  ((0 <= numSimulations params < 2 ^ 32)%Z -> (0 <= timeHorizon params + 1)%Z ->
   exists progress results state',
     onmessage randomNormal {| request := MonteCarlo params; requestId := id |} state
     = (monteCarloStarted id :: progress ++ [monteCarloResults id results], state')
     /\ Forall isChunkProgress progress
     /\ length results = Z.to_nat (numSimulations params))
  /\ ((numSimulations params < 0)%Z ->
      onmessage randomNormal {| request := MonteCarlo params; requestId := id |} state
      = ([monteCarloStarted id; caughtError id "Invalid array length" "monteCarlo"], state)).
Proof.
  split.
  - intros Hn Hth.
    destruct (onmessage_monteCarlo randomNormal params id state 0 Hn Hth ltac:(lia))
      as (run0 & run1 & run2 & state1 & state2 & posted1 & posted2
          & _ & _ & _ & Hon & _ & _ & _ & _ & _ & _ & Hlen & Hall & _).
    by exists (posted1 ++ posted2), (results run2), state2.
  - intros Hneg. unfold onmessage, runMonteCarloSimulation, startRun.
    cbn [request requestId].
    destruct (Z.ltb_spec (numSimulations params) 0); [done|lia].
Qed.

Lemma monteCarlo_request_is_not_validated_witness :
  (exists progress results state',
    onmessage (fun _ => 0)
      {| request :=
           MonteCarlo
             {| initialInvestment := 50000000; timeHorizon := 2; interestRate := 5;
                propertyAppreciation := 3; defaultRate := 1; volatility := 2;
                numSimulations := 3; chunkSize := None; reportProgress := None;
                zoneAllocation := Some [("green", 60); ("orange", 39); ("red", 2)];
                geographyAllocation := None |};
         requestId := Some "sim-1" |}
      {| cache := ∅; drawn := 0 |}
    = (monteCarloStarted (Some "sim-1") :: progress
         ++ [monteCarloResults (Some "sim-1") results], state')
    /\ Forall isChunkProgress progress
    /\ length results = 3%nat)
  /\ onmessage (fun _ => 0)
       {| request :=
            MonteCarlo
              {| initialInvestment := 50000000; timeHorizon := 2; interestRate := 5;
                 propertyAppreciation := 3; defaultRate := 1; volatility := 2;
                 numSimulations := -1; chunkSize := None; reportProgress := None;
                 zoneAllocation := None; geographyAllocation := None |};
          requestId := Some "sim-2" |}
       {| cache := ∅; drawn := 0 |}
     = ([monteCarloStarted (Some "sim-2");
         caughtError (Some "sim-2") "Invalid array length" "monteCarlo"],
        {| cache := ∅; drawn := 0 |}).
Proof.
  split.
  - apply (monteCarlo_request_is_not_validated (fun _ => 0)
             {| initialInvestment := 50000000; timeHorizon := 2; interestRate := 5;
                propertyAppreciation := 3; defaultRate := 1; volatility := 2;
                numSimulations := 3; chunkSize := None; reportProgress := None;
                zoneAllocation := Some [("green", 60); ("orange", 39); ("red", 2)];
                geographyAllocation := None |}
             (Some "sim-1") {| cache := ∅; drawn := 0 |}); simpl; lia.
  - apply (monteCarlo_request_is_not_validated (fun _ => 0)
             {| initialInvestment := 50000000; timeHorizon := 2; interestRate := 5;
                propertyAppreciation := 3; defaultRate := 1; volatility := 2;
                numSimulations := -1; chunkSize := None; reportProgress := None;
                zoneAllocation := None; geographyAllocation := None |}
             (Some "sim-2") {| cache := ∅; drawn := 0 |}). simpl. lia.
Defined.

(** C2, as stated, fails: in a run of five chunks with a cancel request
    posted after the first chunk, the worker goes on to post the results of
    the run for the correlation id, and answers the cancel request after
    them. *)
Lemma cancel_after_first_chunk_still_emits_results :
  let params :=
    {| initialInvestment := 1000; timeHorizon := 1; interestRate := 5;
       propertyAppreciation := 3; defaultRate := 1; volatility := 2;
       numSimulations := 5; chunkSize := Some 1%positive; reportProgress := None;
       zoneAllocation := None; geographyAllocation := None |} in
  let events :=
    [Post {| request := MonteCarlo params; requestId := Some "run-1" |}; Work; Work;
     Post {| request := Cancel; requestId := Some "run-1" |};
     Work; Work; Work; Work; Work; Work] in
  let responses :=
    outbox (runEvents (fun _ => 0) events (idle {| cache := ∅; drawn := 0 |})) in
  totalChunks params = 5%nat
  /\ emittedFor "monteCarloResults" "run-1" responses = true
  /\ responseType <$> responsesFor "run-1" responses
     = ["progress"; "monteCarloResults"; "cancelled"].
Proof. vm_compute. repeat split. Qed.

(** C2 (amended): a cancel request does not interrupt a Monte Carlo run.
    Posted after any number [k] of the chunks of the run, it waits in the
    queue of the worker; the worker runs the remaining chunks, posts the
    progress of every chunk and the results of the run for the correlation
    id, and only then answers the cancel request with [cancelled]. *)
Theorem cancel_waits_for_the_run (randomNormal : nat -> Q)
    (params : MonteCarloParams) (id : option string) (state : WorkerState) (k : nat) :
  (0 <= numSimulations params < 2 ^ 32)%Z ->
  (0 <= timeHorizon params + 1)%Z ->
  (k <= totalChunks params)%nat ->
  let monteCarlo := {| request := MonteCarlo params; requestId := id |} in
  let cancel := {| request := Cancel; requestId := id |} in
  let events :=
    [Post monteCarlo; Work] ++ repeat Work k ++ [Post cancel]
      ++ repeat Work (totalChunks params - k) ++ [Work; Work] in
  exists progress results,
    Forall isChunkProgress progress
    /\ length progress = (if reportProgressOf params then totalChunks params else 0%nat)
    /\ (onmessage randomNormal monteCarlo state).1
       = monteCarloStarted id :: progress ++ [monteCarloResults id results]
    /\ outbox (runEvents randomNormal events (idle state))
       = monteCarloStarted id :: progress ++ [monteCarloResults id results; cancelled id].
Proof.
  intros Hn Hth Hk monteCarlo cancel events. subst monteCarlo cancel events.
  destruct (onmessage_monteCarlo randomNormal params id state k Hn Hth Hk)
    as (run0 & run1 & run2 & state1 & state2 & posted1 & posted2
        & Hstart & E1 & E2 & Hon & Hc0 & Hn0 & Hn1 & Hc1 & Hn2 & Hc2 & _ & Hall & Hlen).
  exists (posted1 ++ posted2), (results run2).
  split; [done|]. split; [done|]. split; [by rewrite Hon|].
  unfold runEvents. rewrite !foldl_app.
  assert (Hdispatch :
    foldl (step randomNormal) (idle state)
          [Post {| request := MonteCarlo params; requestId := id |}; Work]
    = {| globals := state; inbox := []; inProgress := Some (id, run0);
         outbox := [monteCarloStarted id] |}).
  { cbn [foldl step idle]. unfold work.
    cbn [idle inProgress inbox globals outbox app request requestId]. by rewrite Hstart. }
  rewrite Hdispatch.
  pose proof (work_runs_chunks randomNormal k id run0 run1 state state1 posted1
                [monteCarloStarted id] []) as Hfirst.
  unfold runEvents in Hfirst. rewrite Hfirst by (first [done | unfold totalChunks in Hk; lia]).
  cbn [foldl step globals inbox inProgress outbox app].
  pose proof (work_runs_chunks randomNormal (totalChunks params - k) id run1 run2
                state1 state2 posted2 (monteCarloStarted id :: posted1)
                [{| request := Cancel; requestId := id |}]) as Hrest.
  unfold runEvents in Hrest.
  rewrite Hrest by (first [done | unfold totalChunks in *; lia]).
  unfold work. cbn [foldl step globals inbox inProgress outbox].
  destruct (Z.ltb_spec (chunk run2) (numChunks run2)) as [Hlt|_].
  { unfold totalChunks in *. lia. }
  unfold work. cbn [globals inbox inProgress outbox request requestId onmessage].
  by rewrite <- !app_assoc.
Qed.

Lemma cancel_waits_for_the_run_witness :
  exists progress results,
    Forall isChunkProgress progress
    /\ length progress = 5%nat
    /\ (onmessage (fun _ => 0)
          {| request :=
               MonteCarlo
                 {| initialInvestment := 1000; timeHorizon := 1; interestRate := 5;
                    propertyAppreciation := 3; defaultRate := 1; volatility := 2;
                    numSimulations := 5; chunkSize := Some 1%positive;
                    reportProgress := None;
                    zoneAllocation := None; geographyAllocation := None |};
             requestId := Some "run-1" |}
          {| cache := ∅; drawn := 0 |}).1
       = monteCarloStarted (Some "run-1") :: progress
           ++ [monteCarloResults (Some "run-1") results]
    /\ outbox
         (runEvents (fun _ => 0)
            ([Post {| request :=
                        MonteCarlo
                          {| initialInvestment := 1000; timeHorizon := 1; interestRate := 5;
                             propertyAppreciation := 3; defaultRate := 1; volatility := 2;
                             numSimulations := 5; chunkSize := Some 1%positive;
                             reportProgress := None;
                             zoneAllocation := None; geographyAllocation := None |};
                      requestId := Some "run-1" |}; Work]
               ++ repeat Work 1
               ++ [Post {| request := Cancel; requestId := Some "run-1" |}]
               ++ repeat Work 4 ++ [Work; Work])
            (idle {| cache := ∅; drawn := 0 |}))
       = monteCarloStarted (Some "run-1") :: progress
           ++ [monteCarloResults (Some "run-1") results; cancelled (Some "run-1")].
Proof.
  apply (cancel_waits_for_the_run (fun _ => 0)
           {| initialInvestment := 1000; timeHorizon := 1; interestRate := 5;
              propertyAppreciation := 3; defaultRate := 1; volatility := 2;
              numSimulations := 5; chunkSize := Some 1%positive; reportProgress := None;
              zoneAllocation := None; geographyAllocation := None |}
           (Some "run-1") {| cache := ∅; drawn := 0 |} 1).
  - simpl. lia.
  - simpl. lia.
  - vm_compute. lia.
Defined.

(** * Further properties *)

(** ** IRR: the range of a returned rate, and the number of iterations *)

Lemma lt_false_weaken (g : num) (a b : Q) :
  b <= a -> lt g (Fin a) = false -> lt g (Fin b) = false.
Proof.
  intros Hba. destruct g as [x| | |]; simpl; try done.
  rewrite !Qltb_false. lra.
Qed.

Lemma newtonLoop_rate_not_below (remaining entered : nat) (cashFlows : list Q)
    (times : list Z) (guess r : num) :
  lt guess (Fin (-1)) = false ->
  (newtonLoop remaining entered cashFlows times guess).1 = Some r ->
  lt r (Fin (-1 - tolerance)) = false.
Proof.
  revert entered guess.
  induction remaining as [|remaining IH]; intros entered guess Hguess; cbn [newtonLoop].
  - discriminate.
  - destruct (lt (abs (npvAt cashFlows times guess)) (Fin tolerance)).
    + cbn [fst]. intros [= <-]. apply (lt_false_weaken _ (-1)); [|done].
      unfold tolerance. discriminate.
    + destruct (lt (abs (sub (newtonUpdate cashFlows times guess) guess)) (Fin tolerance))
        eqn:Hstep.
      * cbn [fst]. intros [= <-].
        destruct (newtonUpdate cashFlows times guess) as [x| | |], guess as [y| | |];
          try discriminate Hstep.
        cbn [lt abs sub add neg] in *.
        apply Qltb_true in Hstep. apply Qltb_false in Hguess.
        apply Qltb_false. revert Hstep. apply Qabs_case; intros; lra.
      * destruct (lt (newtonUpdate cashFlows times guess) (Fin (-1))) eqn:Hlow.
        -- discriminate.
        -- by apply IH.
Qed.

(** X1: a rate that [calculateIrr] returns is never below -1 - 1e-7; in
    particular it is never -Infinity. *)
Theorem calculateIrr_rate_not_below (cashFlows : list Q) (timePoints : option (list Z))
    (r : num) :
  calculateIrr cashFlows timePoints = Some r ->
  lt r (Fin (-1 - tolerance)) = false /\ r <> NInf.
Proof.
  unfold calculateIrr, calculateIrrRun.
  destruct (length cashFlows <? 2)%nat; [discriminate|].
  destruct (negb (length cashFlows =? length (timesOf cashFlows timePoints))%nat);
    [discriminate|].
  intros H. apply newtonLoop_rate_not_below in H; [|reflexivity].
  split; [done|]. by intros ->.
Qed.

Lemma calculateIrr_rate_not_below_witness :
  lt (Fin (1 # 10)) (Fin (-1 - tolerance)) = false /\ Fin (1 # 10) <> NInf.
Proof.
  apply (calculateIrr_rate_not_below [-100; 110] None (Fin (1 # 10))).
  vm_compute. reflexivity.
Defined.

Lemma newtonLoop_entered (remaining entered : nat) (cashFlows : list Q)
    (times : list Z) (guess : num) :
  (entered + Nat.min 1 remaining
   <= (newtonLoop remaining entered cashFlows times guess).2
   <= entered + remaining)%nat.
Proof.
  revert entered guess.
  induction remaining as [|remaining IH]; intros entered guess; cbn [newtonLoop].
  - simpl. lia.
  - destruct (lt (abs (npvAt cashFlows times guess)) (Fin tolerance)); [simpl; lia|].
    destruct (lt (abs (sub (newtonUpdate cashFlows times guess) guess)) (Fin tolerance));
      [simpl; lia|].
    destruct (lt (newtonUpdate cashFlows times guess) (Fin (-1))); [simpl; lia|].
    specialize (IH (S entered) (newtonUpdate cashFlows times guess)). lia.
Qed.

(** X2: [calculateIrr] never runs more than 1000 Newton iterations, and it
    runs at least one whenever there are two cash flows or more and as many
    time points as cash flows. *)
Theorem calculateIrr_iterations (cashFlows : list Q) (timePoints : option (list Z)) :
  (irrIterations cashFlows timePoints <= 1000)%nat
  /\ ((2 <= length cashFlows)%nat ->
      length (timesOf cashFlows timePoints) = length cashFlows ->
      (1 <= irrIterations cashFlows timePoints)%nat).
Proof.
  unfold irrIterations, calculateIrrRun.
  pose proof (newtonLoop_entered maxIterations 0 cashFlows
                (timesOf cashFlows timePoints) (Fin initialGuess)) as Hn.
  assert (Hb : forall n : nat,
             (0 + Nat.min 1 maxIterations <= n <= 0 + maxIterations)%nat ->
             (1 <= n <= 1000)%nat)
    by (intros n; unfold maxIterations; lia).
  apply Hb in Hn. clear Hb.
  split.
  - destruct (length cashFlows <? 2)%nat; [cbn [snd]; lia|].
    destruct (negb _); [cbn [snd]; lia|]. lia.
  - intros Hlen Htimes.
    destruct (Nat.ltb_spec (length cashFlows) 2); [lia|].
    rewrite Htimes, Nat.eqb_refl. cbn [negb]. lia.
Qed.

Lemma calculateIrr_iterations_witness :
  (1 <= irrIterations [-100; 60; 60]%Q None)%nat.
Proof.
  apply (calculateIrr_iterations [-100; 60; 60] None); simpl; lia.
Defined.

(** ** Value at risk: the confidence level *)

(** X3: the value at risk does not increase when the confidence level
    grows: of two confidence levels for which [calculateVaR] returns a
    value, the higher one has the lower or the same value (the rounded
    index is monotone); and at the confidence level 100 the value, on a
    non-empty array, is the minimum of the returns. *)
Theorem calculateVaR_antitone (returns : list Q) (c1 c2 : Q) :
  c1 <= c2 ->
  (forall v1 v2,
     calculateVaR returns c1 = Some v1 -> calculateVaR returns c2 = Some v2 -> v2 <= v1)
  /\ (returns <> [] ->
      exists m, calculateVaR returns 100 = Some m /\ isMinimumOf m returns).
Proof.
  intros Hc. unfold calculateVaR. split.
  - intros v1 v2 H1 H2.
    pose proof (varIndex_antitone (length (sortAsc returns)) c1 c2 Hc) as Hi.
    apply arr_get_Some in H1 as [Hi1 H1]. apply arr_get_Some in H2 as [Hi2 H2].
    assert (Hle : (Z.to_nat (varIndex (length (sortAsc returns)) c2)
                   <= Z.to_nat (varIndex (length (sortAsc returns)) c1))%nat) by lia.
    apply (sortAsc_ascending returns _ _ _ _ Hle H2 H1).
  - intros Hne. rewrite varIndex_100.
    destruct (sortAsc returns) as [|m sorted] eqn:E.
    + apply (f_equal length) in E. rewrite sortAsc_length in E.
      destruct returns; [done|discriminate].
    + exists m. split; [done|]. apply sortAsc_first_is_minimum. by rewrite E.
Qed.

Lemma calculateVaR_antitone_witness :
  calculateVaR [-3; 5; -10; 2] 50 = Some 2
  /\ calculateVaR [-3; 5; -10; 2] 95 = Some (-10)
  /\ -10 <= 2.
Proof.
  split; [reflexivity|]. split; [reflexivity|].
  apply (calculateVaR_antitone [-3; 5; -10; 2] 50 95); [discriminate|reflexivity..].
Defined.

(** ** Equity multiple: its sign *)

Lemma positiveReturns_nonneg (cashFlows : list Q) : 0 <= positiveReturns cashFlows.
Proof.
  unfold positiveReturns.
  assert (H : forall l acc, 0 <= acc ->
            0 <= foldl (fun sum cf => sum + Math_max 0 cf) acc l).
  { induction l as [|c l IH]; intros acc Hacc; simpl; [done|].
    apply IH. destruct (Math_max_cases 0 c) as [[? ->] | [? ->]]; lra. }
  apply H. lra.
Qed.

(** X6: the equity multiple of a series is never negative; when the first
    cash flow is not zero it is a finite number, whatever the sign of that
    cash flow. *)
Theorem equityMultipleOf_nonneg (cashFlows : list Q) :
  lt (equityMultipleOf cashFlows) (Fin 0) = false
  /\ (forall (first : Q) (rest : list Q),
        cashFlows = first :: rest -> ~ first == 0 ->
        exists q, equityMultipleOf cashFlows = Fin q /\ 0 <= q).
Proof.
  pose proof (positiveReturns_nonneg cashFlows) as Hpos.
  unfold equityMultipleOf, calculateEquityMultiple, absFirst.
  destruct cashFlows as [|first rest]; [by split|].
  cbn [head div].
  pose proof (Qabs_nonneg first) as Habs.
  destruct (Qabs first ?= 0) eqn:E.
  - rewrite <- Qeq_alt in E. split.
    + destruct (positiveReturns (first :: rest) ?= 0) eqn:E'; [done| |done].
      rewrite <- Qlt_alt in E'. lra.
    + intros ? ? [= <- <-] Hne. exfalso. apply Hne.
      revert E. apply Qabs_case; intros; lra.
  - rewrite <- Qlt_alt in E. lra.
  - rewrite <- Qgt_alt in E.
    assert (Hq : 0 <= positiveReturns (first :: rest) / Qabs first).
    { apply Qle_shift_div_l; [done|]. lra. }
    split.
    + cbn [lt]. by apply Qltb_false.
    + intros ? ? _ _. by eexists.
Qed.

Lemma equityMultipleOf_nonneg_witness :
  exists q, equityMultipleOf [100; 150; -20] = Fin q /\ 0 <= q.
Proof.
  apply (proj2 (equityMultipleOf_nonneg [100; 150; -20]) 100 [150; -20]);
    [reflexivity|discriminate].
Defined.

(** ** Powers with an integral exponent *)

Lemma pow_Fin_nonneg (q : Q) (e : Z) :
  (0 <= e)%Z -> exists v, pow (Fin q) e = Fin v /\ v == q ^ e.
Proof.
  intros He. unfold pow. destruct (Z.eqb_spec e 0) as [-> | Hne].
  - exists 1. split; reflexivity.
  - destruct (Qeq_bool q 0) eqn:E.
    + apply Qeq_bool_iff in E. destruct (Z.ltb_spec 0 e); [|lia].
      exists 0. split; [done|]. rewrite E. symmetry. by apply Qpower_0.
    + by exists (q ^ e).
Qed.

Lemma pow_Fin_nonzero (q : Q) (e : Z) :
  ~ q == 0 -> exists v, pow (Fin q) e = Fin v /\ v == q ^ e.
Proof.
  intros Hq. unfold pow. destruct (Z.eqb_spec e 0) as [-> | Hne].
  - exists 1. split; reflexivity.
  - destruct (Qeq_bool q 0) eqn:E.
    + apply Qeq_bool_iff in E. done.
    + by exists (q ^ e).
Qed.

(** ** Performance fee *)



(** ** Portfolio value *)

Lemma portfolioValueLoop_no_time_points (cashFlows : list Q) (time : Z)
    (growthRate value : Q) :
  portfolioValueLoop cashFlows [] time growthRate value = value.
Proof. induction cashFlows as [|cf cashFlows IH]; [done|exact IH]. Qed.

Lemma portfolioValueLoop_counted (cashFlows : list Q) (timePoints : list Z) (time : Z)
    (growthRate value : Q) :
  portfolioValueLoop cashFlows timePoints time growthRate value
  = portfolioValueLoop
      (filter (fun flow : Q * Z => (flow.2 <= time)%Z) (zip cashFlows timePoints)).*1
      (filter (fun flow : Q * Z => (flow.2 <= time)%Z) (zip cashFlows timePoints)).*2
      time growthRate value.
Proof.
  revert timePoints value.
  induction cashFlows as [|cf cashFlows IH]; intros timePoints value; [done|].
  destruct timePoints as [|t timePoints].
  - cbn [zip zip_with filter list_filter fmap list_fmap].
    apply portfolioValueLoop_no_time_points.
  - cbn [zip zip_with portfolioValueLoop].
    destruct (Z.leb_spec t time) as [Hle | Hgt].
    + rewrite filter_cons_True by done. cbn [fmap list_fmap fst snd portfolioValueLoop].
      destruct (Z.leb_spec t time) as [_ | ?]; [|lia]. apply IH.
    + rewrite filter_cons_False by (cbn; lia). apply IH.
Qed.



(** ** Exit probabilities *)





(** ** Sharpe ratio *)

(** X14: at a volatility of zero the Sharpe ratio is +Infinity whatever the
    returns, also when the expected return is below the risk-free rate; at
    a positive volatility it is a finite number, which is negative exactly
    when the expected return is below the risk-free rate. *)
Theorem calculateSharpeRatio_sign (expectedReturn riskFreeRate volatility : Q) :
  (volatility == 0 -> calculateSharpeRatio expectedReturn riskFreeRate volatility = PInf)
  /\ (0 < volatility ->
      exists s,
        calculateSharpeRatio expectedReturn riskFreeRate volatility = Fin s
        /\ (s < 0 <-> expectedReturn < riskFreeRate)).
Proof.
  unfold calculateSharpeRatio. split.
  - intros H0. by rewrite (proj2 (Qeq_bool_iff _ _) H0).
  - intros Hpos. destruct (Qeq_bool volatility 0) eqn:E.
    { apply Qeq_bool_iff in E. lra. }
    eexists. split; [reflexivity|].
    assert (Hs : (expectedReturn - riskFreeRate) / volatility * volatility
                 == expectedReturn - riskFreeRate) by (field; lra).
    revert Hs.
    generalize ((expectedReturn - riskFreeRate) / volatility). intros s Hs. split.
    + intros Hneg. assert (0 < (- s) * volatility) by (apply Qmult_lt_0_compat; lra).
      assert (- s * volatility == - (s * volatility)) by ring. lra.
    + intros Hlt. destruct (Qlt_le_dec s 0) as [|Hge]; [done|].
      assert (0 <= s * volatility) by (apply Qmult_le_0_compat; lra). lra.
Qed.

Lemma calculateSharpeRatio_sign_witness :
  calculateSharpeRatio (3 # 100) (5 # 100) 0 = PInf
  /\ exists s, calculateSharpeRatio (3 # 100) (5 # 100) (2 # 10) = Fin s
               /\ (s < 0 <-> (3 # 100) < (5 # 100)).
Proof.
  split.
  - apply (calculateSharpeRatio_sign (3 # 100) (5 # 100) 0). reflexivity.
  - apply (calculateSharpeRatio_sign (3 # 100) (5 # 100) (2 # 10)). reflexivity.
Defined.

(** ** The cache *)

Lemma memoizedIrr_holds_result (args : IrrArgs) (cache : gmap string (option num)) :
  (memoizedIrr args cache).2 !! irrKey args.1 args.2 = Some (memoizedIrr args cache).1.
Proof.
  unfold memoizedIrr, memoize.
  destruct (cache !! irrKey args.1 args.2) eqn:E; cbn [fst snd]; [done|].
  apply lookup_insert_eq.
Qed.

(** X15: a cached rate is stable.  Whatever the cache holds, after a call
    of [memoizedIrr] the cache holds the returned rate under the key of the
    input; the same call again returns it and leaves the cache as it is; and
    so does the same call after any sequence of other calls: an entry is
    never overwritten nor removed by [memoizedIrr]. *)
Theorem memoizedIrr_stable (args : IrrArgs) (cache : gmap string (option num))
    (later : list IrrArgs) :
  let r := (memoizedIrr args cache).1 in
  let cache' := (memoizedIrr args cache).2 in
  cache' !! irrKey args.1 args.2 = Some r
  /\ memoizedIrr args cache' = (r, cache')
  /\ (memoizedIrr args (cacheAfter later cache')).1 = r.
Proof.
  cbn zeta. pose proof (memoizedIrr_holds_result args cache) as H1.
  split; [done|]. split.
  - unfold memoizedIrr at 1, memoize. by rewrite H1.
  - unfold memoizedIrr at 1, memoize. by rewrite cacheAfter_lookup, H1.
Qed.

(** X16: a [clearCache] request is answered by one [cacheCleared] response
    with the id of the request and empties the cache whatever it held: the
    next call of [memoizedIrr] returns what [calculateIrr] returns on its
    input. *)
Theorem clearCache_resets (randomNormal : nat -> Q) (id : option string)
    (state : WorkerState) (args : IrrArgs) :
  let handled := onmessage randomNormal {| request := ClearCache; requestId := id |} state in
  handled.1 = [{| responseType := "cacheCleared"; responseId := id; responseData := NoData |}]
  /\ cache handled.2 = ∅
  /\ drawn handled.2 = drawn state
  /\ (memoizedIrr args (cache handled.2)).1 = calculateIrr args.1 args.2.
Proof.
  cbn [onmessage request requestId fst snd cache drawn].
  split; [reflexivity|]. split; [reflexivity|]. split; [reflexivity|].
  unfold memoizedIrr, memoize. by rewrite lookup_empty.
Qed.

(** ** compareScenarios *)

Lemma compareScenarios_cache (scenarios : list Scenario) (cache : gmap string (option num)) :
  (compareScenarios scenarios cache).2
  = cacheAfter ((fun s => (scenarioCashFlows s, None)) <$> scenarios) cache.
Proof.
  revert cache. induction scenarios as [|s scenarios IH]; intros cache; [done|].
  cbn [compareScenarios fmap list_fmap]. unfold compareScenario.
  destruct (memoizedIrr (scenarioCashFlows s, None) cache) as [r cache1] eqn:E1.
  specialize (IH cache1).
  destruct (compareScenarios scenarios cache1) as [results cache2].
  cbn [snd] in *. rewrite IH.
  change (cacheAfter ((scenarioCashFlows s, None) :: ?l) cache)
    with (cacheAfter l (memoizedIrr (scenarioCashFlows s, None) cache).2).
  by rewrite E1.
Qed.

(** X17: [compareScenarios] returns one result for each scenario, in order,
    with the name, the cash flows and the equity multiple of the scenario;
    and the IRR of every result is the rate that the cache holds, after the
    comparison, under the key of its cash flows. *)
Theorem compareScenarios_results (scenarios : list Scenario)
    (cache : gmap string (option num)) :
  let results := (compareScenarios scenarios cache).1 in
  let cache' := (compareScenarios scenarios cache).2 in
  name <$> results = scenarioName <$> scenarios
  /\ cashFlows <$> results = scenarioCashFlows <$> scenarios
  /\ Forall (fun r => equityMultiple r = equityMultipleOf (cashFlows r)) results
  /\ Forall (fun r => cache' !! irrKey (cashFlows r) None = Some (irr r)) results.
Proof.
  cbn zeta. revert cache. induction scenarios as [|s scenarios IH]; intros cache.
  - cbn. by repeat split.
  - pose proof (compareScenarios_cache (s :: scenarios) cache) as Hcache.
    cbn [compareScenarios] in *. unfold compareScenario in *.
    pose proof (memoizedIrr_holds_result (scenarioCashFlows s, None) cache) as Hhit.
    destruct (memoizedIrr (scenarioCashFlows s, None) cache) as [r cache1] eqn:E1.
    pose proof (compareScenarios_cache scenarios cache1) as Hcache1.
    destruct (IH cache1) as (Hn & Hc & He & Hi).
    destruct (compareScenarios scenarios cache1) as [results cache2].
    cbn [fst snd] in *. cbn [fmap list_fmap name cashFlows].
    split; [by f_equal|]. split; [by f_equal|]. split; [by constructor|].
    constructor; [|done]. cbn [cashFlows irr].
    rewrite Hcache1, cacheAfter_lookup. by rewrite Hhit.
Qed.

(** ** One terminal response for each request *)

Lemma runChunks_posted_progress (randomNormal : nat -> Q) (n : nat)
    (run : MonteCarloRun) (state : WorkerState) :
  Forall isChunkProgress (runChunks randomNormal n run state).2.
Proof.
  revert run state. induction n as [|n IH]; intros run state; cbn [runChunks]; [done|].
  assert (Hchunk : Forall isChunkProgress (runChunk randomNormal run state).2).
  { unfold runChunk. destruct (simulateFrom _ _ _ _ _ _) as [[?|?] ?]; cbn [snd]; [|done].
    destruct (reportProgressOf _); [|done]. by repeat constructor. }
  destruct (runChunk randomNormal run state) as [[[run1|message] state1] posted1];
    cbn [snd] in *; [|done].
  specialize (IH run1 state1).
  destruct (runChunks randomNormal n run1 state1) as [[completion state2] posted2].
  cbn [snd] in *. by apply Forall_app.
Qed.

(** X18: every request of the types handled here ([monteCarlo] with a
    positive chunk size, [compareScenarios], [clearCache], [cancel]) and
    every request of a type that is none of the six message types is
    answered by exactly one terminal response, which is the last response
    of its handler and carries the id of the request; the responses before
    it are progress responses.  For a type that is none of the six the
    terminal response is the error of the [default] case. *)
Theorem onmessage_one_terminal_response (randomNormal : nat -> Q) (e : WorkerMessage)
    (state : WorkerState) :
  isModelled (request e) ->
  exists progress terminal,
    (onmessage randomNormal e state).1 = progress ++ [terminal]
    /\ Forall (fun r => responseType r = "progress") progress
    /\ isTerminal terminal
    /\ responseId terminal = requestId e
    /\ (forall type, request e = Other type -> responseType terminal = "error").
Proof.
  intros _.
  unfold onmessage, isTerminal. destruct (request e) as [data|data| | |type].
  - unfold runMonteCarloSimulation.
    destruct (startRun data) as [run0|message].
    + pose proof (runChunks_posted_progress randomNormal
                    (Z.to_nat (numChunks run0 - chunk run0)) run0 state) as Hposted.
      destruct (runChunks _ _ _ _) as [[[run'|message] state'] posted]; cbn [snd fst] in *.
      * exists (monteCarloStarted (requestId e) :: posted), (monteCarloResults (requestId e) (results run')).
        split; [done|]. split; [|split; [set_solver|done]].
        constructor; [done|]. eapply Forall_impl; [done|]. by intros r [? _].
      * exists (monteCarloStarted (requestId e) :: posted),
               (caughtError (requestId e) message "monteCarlo").
        split; [done|]. split; [|split; [set_solver|done]].
        constructor; [done|]. eapply Forall_impl; [done|]. by intros r [? _].
    + exists [monteCarloStarted (requestId e)],
             (caughtError (requestId e) message "monteCarlo").
      split; [done|]. split; [by repeat constructor|]. split; [set_solver|done].
  - destruct (compareScenarios data (cache state)) as [comparisonResults cache'].
    eexists [_; _], _. split; [reflexivity|].
    split; [by repeat constructor|]. split; [set_solver|done].
  - eexists [], _. split; [reflexivity|]. split; [done|]. split; [set_solver|done].
  - eexists [], _. split; [reflexivity|]. split; [done|]. split; [set_solver|done].
  - eexists [], _. split; [reflexivity|]. split; [done|]. split; [set_solver|done].
Qed.

Lemma onmessage_one_terminal_response_witness :
  exists progress terminal,
    (onmessage (fun k => inject_Z (Z.of_nat k))
               {| request := Other "ping"; requestId := Some "7" |}
               {| cache := ∅; drawn := 0 |}).1 = progress ++ [terminal]
    /\ responseType terminal = "error"
    /\ responseId terminal = Some "7".
Proof.
  destruct (onmessage_one_terminal_response (fun k => inject_Z (Z.of_nat k))
              {| request := Other "ping"; requestId := Some "7" |}
              {| cache := ∅; drawn := 0 |})
    as (progress & terminal & Hrun & _ & _ & Hid & Herr).
  - cbn. apply (bool_decide_unpack _). by vm_compute.
  - exists progress, terminal. split; [exact Hrun|]. split; [|exact Hid].
    by apply (Herr "ping").
Defined.

(** ** The Monte Carlo run, exactly *)

Lemma Qceiling_chunks (n size : Z) :
  (0 <= n)%Z -> (0 < size)%Z ->
  (0 <= Qceiling (inject_Z n / inject_Z size))%Z
  /\ (n <= Qceiling (inject_Z n / inject_Z size) * size)%Z.
Proof.
  intros Hn Hsize.
  assert (Hs : 0 < inject_Z size) by (change 0 with (inject_Z 0); by rewrite <- Zlt_Qlt).
  assert (Hq : 0 <= inject_Z n) by (change 0 with (inject_Z 0); by rewrite <- Zle_Qle).
  assert (H0 : 0 <= inject_Z n / inject_Z size) by (apply Qle_shift_div_l; lra).
  split.
  - rewrite <- (Qceiling_Z 0). by apply Qceiling_resp_le.
  - pose proof (Qle_ceiling (inject_Z n / inject_Z size)) as Hc.
    rewrite Zle_Qle, inject_Z_mult.
    assert (Heq : inject_Z n == inject_Z n / inject_Z size * inject_Z size)
      by (field; lra).
    rewrite Heq at 1. apply Qmult_le_compat_r; lra.
Qed.

Section MonteCarloExact.

Variable randomNormal : nat -> Q.
Variable params : MonteCarloParams.
Variable drawn0 : nat.
Variable cache0 : gmap string (option num).

Hypothesis sizes : (0 <= numSimulations params < 2 ^ 32)%Z.
Hypothesis horizon : (0 <= timeHorizon params + 1)%Z.

Lemma chunkSizeOf_pos : (0 < chunkSizeOf params)%Z.
Proof. unfold chunkSizeOf. destruct (chunkSize params); lia. Qed.

Lemma simulateOne_shape (s : nat) :
  (s < Z.to_nat (numSimulations params))%nat ->
  simulateOne randomNormal params (Z.of_nat s)
    {| cache := cache0; drawn := drawn0 + 3 * s |} (resultsAfter randomNormal params drawn0 s)
  = (Normal (resultsAfter randomNormal params drawn0 (S s)), {| cache := cache0; drawn := drawn0 + 3 * S s |}).
Proof.
  intros Hs. unfold simulateOne. cbn [drawn cache].
  destruct (Z.ltb_spec (timeHorizon params + 1) 0) as [|_]; [lia|].
  f_equal; [|f_equal; lia]. f_equal. unfold resultsAfter.
  rewrite Nat2Z.id, insert_app_r_alt by (by rewrite length_fmap, length_seq).
  rewrite length_fmap, length_seq, Nat.sub_diag.
  replace (Z.to_nat (numSimulations params) - s)%nat
    with (S (Z.to_nat (numSimulations params) - S s)) by lia.
  rewrite seq_S, fmap_app, <- app_assoc. reflexivity.
Qed.

Lemma simulateFrom_shape (count s : nat) :
  (s + count <= Z.to_nat (numSimulations params))%nat ->
  simulateFrom randomNormal count params (Z.of_nat s)
    {| cache := cache0; drawn := drawn0 + 3 * s |} (resultsAfter randomNormal params drawn0 s)
  = (Normal (resultsAfter randomNormal params drawn0 (s + count)), {| cache := cache0; drawn := drawn0 + 3 * (s + count) |}).
Proof.
  revert s. induction count as [|count IH]; intros s Hs; cbn [simulateFrom].
  - by rewrite Nat.add_0_r.
  - rewrite simulateOne_shape by lia.
    replace (Z.of_nat s + 1)%Z with (Z.of_nat (S s)) by lia.
    rewrite IH by lia. by replace (S s + count)%nat with (s + S count)%nat by lia.
Qed.

Lemma runChunk_shape (c : nat) (run : MonteCarloRun) :
  runParams run = params ->
  numChunks run = Z.of_nat (totalChunks params) ->
  chunk run = Z.of_nat c ->
  results run = resultsAfter randomNormal params drawn0 (simulationsDone params c) ->
  exists run',
    runChunk randomNormal run {| cache := cache0; drawn := drawn0 + 3 * simulationsDone params c |}
    = (Normal run', {| cache := cache0; drawn := drawn0 + 3 * simulationsDone params (S c) |},
       if reportProgressOf params then [progressOfChunk params c] else [])
    /\ runParams run' = params
    /\ numChunks run' = Z.of_nat (totalChunks params)
    /\ chunk run' = Z.of_nat (S c)
    /\ results run' = resultsAfter randomNormal params drawn0 (simulationsDone params (S c)).
Proof.
  intros Hp Hn Hc Hr. pose proof chunkSizeOf_pos as Hsize.
  assert (Hprogress : chunkProgress run = progressOfChunk params c).
  { unfold progressOfChunk, chunkProgress. cbn [runParams numChunks chunk].
    by rewrite Hp, Hn, Hc. }
  unfold runChunk. rewrite Hprogress, Hp, Hc, Hr.
  set (startSim := (Z.of_nat c * chunkSizeOf params)%Z).
  set (endSim := Z.min ((Z.of_nat c + 1) * chunkSizeOf params) (numSimulations params)).
  assert (Hdone : simulationsDone params (S c) = Z.to_nat endSim).
  { unfold simulationsDone, endSim. by rewrite Nat2Z.inj_succ. }
  destruct (Z.le_gt_cases (numSimulations params) startSim) as [Hfull | Hpart].
  - assert (Hcount : Z.to_nat (endSim - startSim) = 0%nat) by (unfold endSim; lia).
    assert (Hsame : simulationsDone params (S c) = simulationsDone params c) by (rewrite Hdone; unfold simulationsDone, endSim; fold startSim; lia).
    rewrite Hcount. cbn [simulateFrom]. rewrite Hsame.
    eexists. split; [reflexivity|]. cbn [runParams numChunks chunk results].
    repeat split; [done|lia].
  - assert (Hstart : startSim = Z.of_nat (simulationsDone params c)) by (unfold simulationsDone; fold startSim; lia).
    assert (Hcount : Z.to_nat (endSim - startSim) = (simulationsDone params (S c) - simulationsDone params c)%nat)
      by (rewrite Hdone, Hstart; lia).
    assert (Hle : (simulationsDone params c <= simulationsDone params (S c))%nat) by (rewrite Hdone; unfold endSim; lia).
    rewrite Hcount, Hstart, simulateFrom_shape
      by (rewrite Hdone; unfold endSim; lia).
    replace (simulationsDone params c + (simulationsDone params (S c) - simulationsDone params c))%nat with (simulationsDone params (S c)) by lia.
    eexists. split; [reflexivity|]. cbn [runParams numChunks chunk results].
    repeat split; [done|lia].
Qed.

Lemma runChunks_shape (m c : nat) (run : MonteCarloRun) :
  runParams run = params ->
  numChunks run = Z.of_nat (totalChunks params) ->
  chunk run = Z.of_nat c ->
  results run = resultsAfter randomNormal params drawn0 (simulationsDone params c) ->
  exists run',
    runChunks randomNormal m run {| cache := cache0; drawn := drawn0 + 3 * simulationsDone params c |}
    = (Normal run', {| cache := cache0; drawn := drawn0 + 3 * simulationsDone params (c + m) |},
       if reportProgressOf params then progressOfChunk params <$> seq c m else [])
    /\ results run' = resultsAfter randomNormal params drawn0 (simulationsDone params (c + m)).
Proof.
  revert c run. induction m as [|m IH]; intros c run Hp Hn Hc Hr; cbn [runChunks].
  - rewrite Nat.add_0_r. exists run. split; [|done]. by destruct (reportProgressOf params).
  - destruct (runChunk_shape c run Hp Hn Hc Hr) as (run1 & -> & Hp1 & Hn1 & Hc1 & Hr1).
    destruct (IH (S c) run1 Hp1 Hn1 Hc1 Hr1) as (run' & -> & Hr').
    replace (S c + m)%nat with (c + S m)%nat in * by lia.
    exists run'. split; [|done]. f_equal. by destruct (reportProgressOf params).
Qed.

Lemma runMonteCarloSimulation_exact :
  runMonteCarloSimulation randomNormal params {| cache := cache0; drawn := drawn0 |}
  = (Normal (simulationsOf randomNormal params drawn0),
     {| cache := cache0;
        drawn := drawn0 + 3 * Z.to_nat (numSimulations params) |},
     if reportProgressOf params
     then progressOfChunk params <$> seq 0 (totalChunks params) else []).
Proof.
  pose proof chunkSizeOf_pos as Hsize.
  destruct (Qceiling_chunks (numSimulations params) (chunkSizeOf params)) as [HN0 HN];
    [lia|done|].
  unfold runMonteCarloSimulation. rewrite startRun_normal by done.
  cbn [numChunks chunk].
  assert (Hdone0 : simulationsDone params 0 = 0%nat) by (unfold simulationsDone; lia).
  assert (Hdone : simulationsDone params (totalChunks params) = Z.to_nat (numSimulations params)).
  { unfold simulationsDone, totalChunks. rewrite Z2Nat.id by done. lia. }
  match goal with
  | |- context [runChunks _ _ ?run _] =>
      destruct (runChunks_shape (totalChunks params) 0 run) as (run' & Hrun & Hr')
  end.
  - done.
  - cbn [numChunks]. unfold totalChunks. by rewrite Z2Nat.id.
  - done.
  - cbn [results]. rewrite Hdone0. unfold resultsAfter. by rewrite Nat.sub_0_r.
  - rewrite Hdone0, Nat.mul_0_r, Nat.add_0_r in Hrun.
    rewrite Z.sub_0_r. fold (totalChunks params). rewrite Hrun.
    cbn [Nat.add] in *. rewrite Hdone in *. rewrite Hr'.
    unfold resultsAfter, simulationsOf. by rewrite Nat.sub_diag, app_nil_r.
Qed.

End MonteCarloExact.

Lemma growValues_length (years : nat) (prevValue effectiveReturn : Q) :
  length (growValues years prevValue effectiveReturn) = years.
Proof.
  revert prevValue. induction years as [|years IH]; intros prevValue; cbn; [done|].
  by rewrite IH.
Qed.

Lemma growValues_compat (years : nat) (v v' r r' : Q) :
  v == v' -> r == r' -> Forall2 Qeq (growValues years v r) (growValues years v' r').
Proof.
  revert v v'. induction years as [|years IH]; intros v v' Hv Hr; cbn [growValues].
  - constructor.
  - constructor; [by rewrite Hv, Hr|]. apply IH; [by rewrite Hv, Hr|done].
Qed.

Lemma simValuesOf_compat (params : MonteCarloParams) (r r' : Q) :
  r == r' -> Forall2 Qeq (simValuesOf params r) (simValuesOf params r').
Proof.
  intros Hr. unfold simValuesOf. destruct (_ =? _)%Z; constructor; [reflexivity|].
  by apply growValues_compat.
Qed.

Lemma simulationsOf_lookup (randomNormal : nat -> Q) (params : MonteCarloParams)
    (drawn : nat) (i : nat) :
  (i < Z.to_nat (numSimulations params))%nat ->
  simulationsOf randomNormal params drawn !! i
  = Some (Some (simulationOf randomNormal params drawn i)).
Proof.
  intros Hi. unfold simulationsOf. rewrite list_lookup_fmap, lookup_seq_lt by done.
  reflexivity.
Qed.

Lemma simulationsOf_length (randomNormal : nat -> Q) (params : MonteCarloParams)
    (drawn : nat) :
  length (simulationsOf randomNormal params drawn) = Z.to_nat (numSimulations params).
Proof. unfold simulationsOf. by rewrite length_fmap, length_seq. Qed.

Lemma Math_round_percent (x : Q) :
  0 <= x -> x <= 100 -> (0 <= Math_round x <= 100)%Z.
Proof.
  intros H0 H100. unfold Math_round. split.
  - rewrite <- (Qfloor_Z 0). apply Qfloor_resp_le. change (inject_Z 0) with 0. lra.
  - assert (H : (Qfloor (x + (1 # 2)) < 101)%Z); [|lia].
    rewrite Zlt_Qlt. eapply Qle_lt_trans; [apply Qfloor_le|].
    change (inject_Z 101) with 101. lra.
Qed.

(** X20: the results of a Monte Carlo run and the state it leaves do not
    depend on the chunk size or on whether progress is reported: two
    parameter records that agree on the seven simulation fields give the
    same array of simulations, consume the same draws and leave the same
    cache. *)
Theorem runMonteCarloSimulation_chunking_irrelevant (randomNormal : nat -> Q)
    (params params' : MonteCarloParams) (state : WorkerState) :
  initialInvestment params' = initialInvestment params ->
  timeHorizon params' = timeHorizon params ->
  interestRate params' = interestRate params ->
  propertyAppreciation params' = propertyAppreciation params ->
  defaultRate params' = defaultRate params ->
  volatility params' = volatility params ->
  numSimulations params' = numSimulations params ->
  (0 <= numSimulations params < 2 ^ 32)%Z ->
  (0 <= timeHorizon params + 1)%Z ->
  (runMonteCarloSimulation randomNormal params' state).1
  = (runMonteCarloSimulation randomNormal params state).1.
Proof.
  intros Hi Ht Hr Hp Hd Hv Hn Hsizes Hhorizon. destruct state as [cache0 drawn0].
  rewrite !runMonteCarloSimulation_exact by (rewrite ?Hn, ?Ht; done).
  cbn [fst]. rewrite Hn. f_equal. f_equal.
  unfold simulationsOf, simulationOf, effectiveReturnOf, simValuesOf.
  by rewrite Hi, Ht, Hr, Hp, Hd, Hv, Hn.
Qed.

Lemma runMonteCarloSimulation_chunking_irrelevant_witness :
  (runMonteCarloSimulation (fun k => inject_Z (Z.of_nat k))
     {| initialInvestment := 100; timeHorizon := 2; interestRate := 5;
        propertyAppreciation := 3; defaultRate := 1; volatility := 10;
        numSimulations := 5; chunkSize := Some 2%positive;
        reportProgress := Some false;
        zoneAllocation := None; geographyAllocation := None |}
     {| cache := ∅; drawn := 0 |}).1
  = (runMonteCarloSimulation (fun k => inject_Z (Z.of_nat k))
     {| initialInvestment := 100; timeHorizon := 2; interestRate := 5;
        propertyAppreciation := 3; defaultRate := 1; volatility := 10;
        numSimulations := 5; chunkSize := None; reportProgress := None;
        zoneAllocation := None; geographyAllocation := None |}
     {| cache := ∅; drawn := 0 |}).1.
Proof.
  apply runMonteCarloSimulation_chunking_irrelevant; cbn; try reflexivity; lia.
Defined.

(** X21: a Monte Carlo run with array sizes in range returns normally with
    one row per simulation; row [i] is computed from the three draws
    [3 i], [3 i + 1] and [3 i + 2] after those the worker had consumed
    before; the run consumes exactly three draws per simulation, also for a
    time horizon of -1 or 0 where they are not used, and leaves the IRR
    cache as it was. *)
Theorem runMonteCarloSimulation_draws (randomNormal : nat -> Q)
    (params : MonteCarloParams) (state : WorkerState) :
  (0 <= numSimulations params < 2 ^ 32)%Z ->
  (0 <= timeHorizon params + 1)%Z ->
  exists rows state',
    (runMonteCarloSimulation randomNormal params state).1 = (Normal rows, state')
    /\ length rows = Z.to_nat (numSimulations params)
    /\ (forall i, (i < Z.to_nat (numSimulations params))%nat ->
          rows !! i
          = Some (Some (simValuesOf params
               ((generateRandomValue (interestRate params) (volatility params)
                   (randomNormal (drawn state + 3 * i)%nat)
                 + generateRandomValue (propertyAppreciation params) (volatility params)
                     (randomNormal (drawn state + 3 * i + 1)%nat)
                 - generateRandomValue (defaultRate params) (volatility params)
                     (randomNormal (drawn state + 3 * i + 2)%nat)) / 100))))
    /\ drawn state' = (drawn state + 3 * Z.to_nat (numSimulations params))%nat
    /\ cache state' = cache state.
Proof.
  intros Hsizes Hhorizon. destruct state as [cache0 drawn0].
  rewrite runMonteCarloSimulation_exact by done. cbn [fst drawn cache].
  eexists _, _. split; [reflexivity|]. cbn [drawn cache].
  split; [apply simulationsOf_length|]. split; [|done].
  intros i Hi. by rewrite simulationsOf_lookup.
Qed.

Lemma runMonteCarloSimulation_draws_witness :
  exists rows state',
    (runMonteCarloSimulation (fun k => inject_Z (Z.of_nat k))
       {| initialInvestment := 100; timeHorizon := 0; interestRate := 5;
          propertyAppreciation := 3; defaultRate := 1; volatility := 10;
          numSimulations := 4; chunkSize := Some 3%positive;
          reportProgress := None;
          zoneAllocation := None; geographyAllocation := None |}
       {| cache := ∅; drawn := 7 |}).1 = (Normal rows, state')
    /\ length rows = 4%nat
    /\ drawn state' = 19%nat.
Proof.
  destruct (runMonteCarloSimulation_draws (fun k => inject_Z (Z.of_nat k))
     {| initialInvestment := 100; timeHorizon := 0; interestRate := 5;
        propertyAppreciation := 3; defaultRate := 1; volatility := 10;
        numSimulations := 4; chunkSize := Some 3%positive;
        reportProgress := None;
        zoneAllocation := None; geographyAllocation := None |}
     {| cache := ∅; drawn := 7 |})
    as (rows & state' & Hrun & Hlen & _ & Hdrawn & _); [cbn; lia..|].
  exists rows, state'. split; [exact Hrun|]. split; [exact Hlen|exact Hdrawn].
Defined.

(** X22: the progress reports of a Monte Carlo run.  With [reportProgress]
    off nothing is posted.  With it on (the default) one report is posted
    per chunk; the report of chunk [k] carries a percentage between 0 and
    100 and [min ((k + 1) * chunkSize, numSimulations)] processed
    simulations, and the report of the last chunk carries 100 percent and
    all simulations. *)
Theorem runMonteCarloSimulation_progress (randomNormal : nat -> Q)
    (params : MonteCarloParams) (state : WorkerState) :
  (0 <= numSimulations params < 2 ^ 32)%Z ->
  (0 <= timeHorizon params + 1)%Z ->
  let posted := (runMonteCarloSimulation randomNormal params state).2 in
  (reportProgressOf params = false -> posted = [])
  /\ (reportProgressOf params = true ->
      length posted = totalChunks params
      /\ forall k r, posted !! k = Some r ->
           isChunkProgress r
           /\ exists percent processed,
                reportedProgress r = Some (percent, processed)
                /\ (0 <= percent <= 100)%Z
                /\ processed = Z.min ((Z.of_nat k + 1) * chunkSizeOf params)
                                     (numSimulations params)
                /\ (S k = totalChunks params ->
                    percent = 100%Z /\ processed = numSimulations params)).
Proof.
  intros Hsizes Hhorizon posted. subst posted. destruct state as [cache0 drawn0].
  rewrite runMonteCarloSimulation_exact by done. cbn [snd].
  split; [by intros ->|]. intros ->.
  split; [by rewrite length_fmap, length_seq|].
  intros k r Hr. apply list_lookup_fmap_Some in Hr as (k' & -> & Hk).
  apply lookup_seq in Hk as [-> Hk]. cbn [Nat.add] in *.
  pose proof (Qceiling_chunks (numSimulations params) (chunkSizeOf params)
                ltac:(lia) (chunkSizeOf_pos params)) as [HN0 HN].
  assert (Htotal : Z.of_nat (totalChunks params)
                   = Qceiling (inject_Z (numSimulations params)
                               / inject_Z (chunkSizeOf params)))
    by (unfold totalChunks; lia).
  split; [done|].
  unfold progressOfChunk, chunkProgress, reportedProgress.
  cbn [responseData runParams numChunks chunk].
  eexists _, _. split; [reflexivity|].
  assert (Hpos : 0 < inject_Z (Z.of_nat (totalChunks params)))
    by (change 0 with (inject_Z 0); rewrite <- Zlt_Qlt; lia).
  assert (Hk1 : 0 <= inject_Z (Z.of_nat k + 1))
    by (change 0 with (inject_Z 0); rewrite <- Zle_Qle; lia).
  assert (Hk2 : inject_Z (Z.of_nat k + 1) <= inject_Z (Z.of_nat (totalChunks params)))
    by (rewrite <- Zle_Qle; lia).
  split; [|split; [done|]].
  - apply Math_round_percent.
    + apply Qmult_le_0_compat; [|lra]. apply Qle_shift_div_l; lra.
    + assert (H1 : inject_Z (Z.of_nat k + 1) / inject_Z (Z.of_nat (totalChunks params)) <= 1)
        by (apply Qle_shift_div_r; lra).
      lra.
  - intros Hlast. replace (Z.of_nat k + 1)%Z with (Z.of_nat (totalChunks params)) by lia.
    split.
    + unfold Math_round.
      assert (Heq : inject_Z (Z.of_nat (totalChunks params))
                    / inject_Z (Z.of_nat (totalChunks params)) * 100 + (1 # 2)
                    == 201 # 2) by (field; lra).
      by rewrite Heq.
    + rewrite Htotal. lia.
Qed.

Lemma runMonteCarloSimulation_progress_witness :
  length (runMonteCarloSimulation (fun k => inject_Z (Z.of_nat k))
     {| initialInvestment := 100; timeHorizon := 1; interestRate := 5;
        propertyAppreciation := 3; defaultRate := 1; volatility := 10;
        numSimulations := 5; chunkSize := Some 2%positive;
        reportProgress := None;
        zoneAllocation := None; geographyAllocation := None |}
     {| cache := ∅; drawn := 0 |}).2 = 3%nat.
Proof.
  apply (runMonteCarloSimulation_progress (fun k => inject_Z (Z.of_nat k))
     {| initialInvestment := 100; timeHorizon := 1; interestRate := 5;
        propertyAppreciation := 3; defaultRate := 1; volatility := 10;
        numSimulations := 5; chunkSize := Some 2%positive;
        reportProgress := None;
        zoneAllocation := None; geographyAllocation := None |}
     {| cache := ∅; drawn := 0 |}); [cbn; lia..|reflexivity].
Defined.

Lemma growValues_steps (years : nat) (prevValue effectiveReturn : Q) (y : nat) (v v' : Q) :
  (prevValue :: growValues years prevValue effectiveReturn) !! y = Some v ->
  (prevValue :: growValues years prevValue effectiveReturn) !! S y = Some v' ->
  v' = v * (1 + effectiveReturn).
Proof.
  revert prevValue y. induction years as [|years IH]; intros prevValue y Hv Hv'.
  - by destruct y.
  - destruct y as [|y].
    + cbn in Hv, Hv'. by simplify_eq.
    + apply (IH (prevValue * (1 + effectiveReturn)) y); [exact Hv|exact Hv'].
Qed.

Lemma growValues_nonneg (years : nat) (prevValue effectiveReturn : Q) :
  0 <= prevValue -> -1 <= effectiveReturn ->
  Forall (Qle 0) (growValues years prevValue effectiveReturn).
Proof.
  revert prevValue. induction years as [|years IH]; intros prevValue Hp Hr; cbn [growValues].
  - constructor.
  - assert (H : 0 <= prevValue * (1 + effectiveReturn)) by (apply Qmult_le_0_compat; lra).
    constructor; [done|]. by apply IH.
Qed.



(** X24: with a volatility of zero the run does not depend on the draws:
    for every sequence of finite draws, every simulation is the path grown
    at [(interestRate + propertyAppreciation - defaultRate) / 100].  (A
    draw is a rational here: the infinite draw that [generateRandomNormal]
    returns when [Math.random] returns 0, for which the values are NaN, is
    not one of them.) *)
Theorem runMonteCarloSimulation_zero_volatility (randomNormal : nat -> Q)
    (params : MonteCarloParams) (state : WorkerState) :
  (0 <= numSimulations params < 2 ^ 32)%Z ->
  (0 <= timeHorizon params + 1)%Z ->
  volatility params == 0 ->
  exists rows,
    (runMonteCarloSimulation randomNormal params state).1.1 = Normal rows
    /\ length rows = Z.to_nat (numSimulations params)
    /\ Forall (fun row => exists values, row = Some values
                 /\ Forall2 Qeq values
                      (simValuesOf params
                         ((interestRate params + propertyAppreciation params
                           - defaultRate params) / 100))) rows.
Proof.
  intros Hsizes Hhorizon Hvol. destruct state as [cache0 drawn0].
  rewrite runMonteCarloSimulation_exact by done. cbn [fst].
  eexists. split; [reflexivity|]. split; [apply simulationsOf_length|].
  unfold simulationsOf. apply Forall_fmap, Forall_forall. intros i _. cbn.
  eexists. split; [reflexivity|]. apply simValuesOf_compat.
  unfold effectiveReturnOf, generateRandomValue. rewrite Hvol.
  rewrite !Qdiv_100. ring.
Qed.

Lemma runMonteCarloSimulation_zero_volatility_witness :
  exists rows,
    (runMonteCarloSimulation (fun k => inject_Z (Z.of_nat k))
       {| initialInvestment := 100; timeHorizon := 1; interestRate := 5;
          propertyAppreciation := 3; defaultRate := 1; volatility := 0;
          numSimulations := 2; chunkSize := None; reportProgress := None;
          zoneAllocation := None; geographyAllocation := None |}
       {| cache := ∅; drawn := 0 |}).1.1 = Normal rows
    /\ length rows = 2%nat.
Proof.
  destruct (runMonteCarloSimulation_zero_volatility (fun k => inject_Z (Z.of_nat k))
       {| initialInvestment := 100; timeHorizon := 1; interestRate := 5;
          propertyAppreciation := 3; defaultRate := 1; volatility := 0;
          numSimulations := 2; chunkSize := None; reportProgress := None;
          zoneAllocation := None; geographyAllocation := None |}
       {| cache := ∅; drawn := 0 |}) as (rows & Hrun & Hlen & _);
    [cbn; lia| cbn; lia| reflexivity|].
  exists rows. split; [exact Hrun|exact Hlen].
Defined.

(** ** Portfolio projections *)

Lemma sortWithUndefined_defined (values : list Q) :
  sortWithUndefined (Some <$> values) = Some <$> sortAsc values.
Proof.
  unfold sortWithUndefined.
  assert (H1 : omap id (Some <$> values) = values).
  { induction values as [|v values IH]; cbn; [done|]. by rewrite IH. }
  assert (H2 : filter (fun v : option Q => v = None) (Some <$> values) = []).
  { clear H1. induction values as [|v values IH]; [done|].
    rewrite fmap_cons, filter_cons_False by done. exact IH. }
  rewrite H1, H2. cbn. by rewrite app_nil_r.
Qed.

Lemma arr_get_defined (values : list Q) (i : Z) :
  mjoin (arr_get (Some <$> values) i) = arr_get values i.
Proof.
  unfold arr_get. destruct (i <? 0)%Z; [done|].
  rewrite list_lookup_fmap. by destruct (values !! Z.to_nat i).
Qed.

(** On an array without holes [calculatePercentileOf] is
    [calculatePercentile]. *)
Lemma calculatePercentileOf_defined (values : list Q) (percentile : Q) :
  calculatePercentileOf (Some <$> values) percentile
  = calculatePercentile values percentile.
Proof.
  unfold calculatePercentileOf, calculatePercentile.
  rewrite sortWithUndefined_defined, length_fmap, !arr_get_defined. reflexivity.
Qed.

Lemma yearValues_defined (monteCarloResults : list (list Q)) (year : nat) :
  Forall (fun sim => (year < length sim)%nat) monteCarloResults ->
  exists values,
    map (fun sim : list Q => sim !! year) monteCarloResults = Some <$> values
    /\ length values = length monteCarloResults.
Proof.
  induction 1 as [|sim sims Hsim _ (values & Heq & Hlen)].
  - by exists [].
  - destruct (lookup_lt_is_Some_2 sim year Hsim) as [v Hv].
    exists (v :: values). split; [|cbn; by rewrite Hlen].
    cbn [map]. by rewrite Hv, Heq.
Qed.

(** From 0 to 100 the percentile of a non-empty array is a number: the
    position that is computed is inside the array. *)
Lemma calculatePercentile_is_Some (values : list Q) (p : Q) :
  values <> [] -> (Z.of_nat (length values) < 2 ^ 53)%Z ->
  0 <= p -> p <= 100 ->
  is_Some (calculatePercentile values p).
Proof.
  intros Hne Hlen Hp0 Hp100.
  assert (Hpos : (0 < Z.of_nat (length values) < 2 ^ 53)%Z)
    by (destruct values; [done|cbn [length] in *; lia]).
  destruct (percentileIndex_range (length values) p Hpos Hp0 Hp100) as [H0 H1].
  unfold calculatePercentile. rewrite sortAsc_length.
  change (Double.mul (Double.div p 100) (Double.sub (inject_Z (Z.of_nat (length values))) 1))
    with (percentileIndex (length values) p).
  set (index := percentileIndex (length values) p) in *.
  assert (Hfloor : (0 <= Qfloor index < Z.of_nat (length values))%Z).
  { split.
    - rewrite <- (Qfloor_Z 0). by apply Qfloor_resp_le.
    - assert (H : (Qfloor index <= Z.of_nat (length values - 1))%Z); [|lia].
      rewrite <- (Qfloor_Z (Z.of_nat (length values - 1))). by apply Qfloor_resp_le. }
  assert (Hceiling : (0 <= Qceiling index < Z.of_nat (length values))%Z).
  { split.
    - rewrite <- (Qceiling_Z 0). by apply Qceiling_resp_le.
    - assert (H : (Qceiling index <= Z.of_nat (length values - 1))%Z); [|lia].
      rewrite <- (Qceiling_Z (Z.of_nat (length values - 1))). by apply Qceiling_resp_le. }
  destruct (arr_get_in_range (sortAsc values) (Qfloor index)) as (lo & Hlo & _);
    [by rewrite sortAsc_length|].
  destruct (arr_get_in_range (sortAsc values) (Qceiling index)) as (hi & Hhi & _);
    [by rewrite sortAsc_length|].
  rewrite Hlo, Hhi. by destruct (Number_isInteger index).
Qed.

(** X25: for a non-empty array of simulations that all reach the time
    horizon, [calculatePortfolioProjections] returns one projection for
    each year from 0 to the time horizon, in this order, and each of the
    five bands of each projection is a number (not [undefined], not
    NaN). *)
Theorem calculatePortfolioProjections_defined (monteCarloResults : list (list Q))
    (timeHorizon : Z) :
  monteCarloResults <> [] ->
  (Z.of_nat (length monteCarloResults) < 2 ^ 53)%Z ->
  (0 <= timeHorizon + 1 < 2 ^ 32)%Z ->
  Forall (fun sim => (timeHorizon < Z.of_nat (length sim))%Z) monteCarloResults ->
  exists projections,
    calculatePortfolioProjections monteCarloResults timeHorizon = Normal projections
    /\ length projections = Z.to_nat (timeHorizon + 1)
    /\ forall y, (y < Z.to_nat (timeHorizon + 1))%nat ->
         exists projection,
           projections !! y = Some projection
           /\ year projection = y
           /\ is_Some (percentile_5 projection)
           /\ is_Some (percentile_25 projection)
           /\ is_Some (median projection)
           /\ is_Some (percentile_75 projection)
           /\ is_Some (percentile_95 projection).
Proof.
  intros Hne Hlen Hhorizon Hreach. unfold calculatePortfolioProjections.
  destruct (Z.leb_spec (2 ^ 32) (timeHorizon + 1)) as [|_]; [lia|].
  eexists. split; [reflexivity|]. split; [by rewrite length_map, length_seq|].
  intros y Hy.
  destruct (yearValues_defined monteCarloResults y) as (values & Hvalues & Hsame).
  { eapply Forall_impl; [exact Hreach|]. cbn. intros sim Hsim. lia. }
  assert (Hvne : values <> []).
  { intros ->. destruct monteCarloResults; [done|discriminate]. }
  exists (projectYear monteCarloResults y). split.
  { change (map ?f ?l) with (f <$> l).
    by rewrite list_lookup_fmap, lookup_seq_lt. }
  unfold projectYear. cbn [year percentile_5 percentile_25 median percentile_75
                           percentile_95].
  rewrite Hvalues, !calculatePercentileOf_defined.
  split; [done|].
  repeat split; apply calculatePercentile_is_Some;
    try done; try (by rewrite Hsame); discriminate.
Qed.

Lemma calculatePortfolioProjections_defined_witness :
  exists projections,
    calculatePortfolioProjections [[100; 110]; [100; 90]; [100; 120]] 1
    = Normal projections
    /\ length projections = 2%nat.
Proof.
  destruct (calculatePortfolioProjections_defined [[100; 110]; [100; 90]; [100; 120]] 1)
    as (projections & Hrun & Hlen & _).
  - done.
  - cbn. lia.
  - lia.
  - repeat constructor.
  - exists projections. split; [exact Hrun|exact Hlen].
Defined.

(** X26: with no simulations, calculatePortfolioProjections still returns
    one projection per year, and every band of every year is undefined or
    NaN (the percentile index is negative). *)
Theorem calculatePortfolioProjections_no_simulations (timeHorizon : Z) :
  (timeHorizon + 1 < 2 ^ 32)%Z ->
  calculatePortfolioProjections [] timeHorizon
  = Normal ((fun y => {| year := y; median := None; percentile_5 := None;
                         percentile_25 := None; percentile_75 := None;
                         percentile_95 := None |})
              <$> seq 0 (Z.to_nat (timeHorizon + 1))).
Proof.
  intros Hhorizon. unfold calculatePortfolioProjections.
  destruct (Z.leb_spec (2 ^ 32) (timeHorizon + 1)) as [|_]; [lia|].
  reflexivity.
Qed.

Lemma calculatePortfolioProjections_no_simulations_witness :
  calculatePortfolioProjections [] 1
  = Normal [ {| year := 0; median := None; percentile_5 := None;
                percentile_25 := None; percentile_75 := None;
                percentile_95 := None |};
             {| year := 1; median := None; percentile_5 := None;
                percentile_25 := None; percentile_75 := None;
                percentile_95 := None |} ].
Proof.
  apply (calculatePortfolioProjections_no_simulations 1). lia.
Defined.
